(** * ComfyUI-History: the PNG text-chunk reader of [web/history-loader.js]

    A shallow embedding of the metadata reader of the front-end script
    ([parsePngTexts], [readPngWorkflow], the remote-PNG load path and the
    copy of the loader that goes through a PNG module), together with the
    text-chunk encoder that the design document asks for.

    JavaScript numbers are modelled as [Z]: every number the reader computes
    is an integer of magnitude far below 2^53, where IEEE doubles are exact.
    The 32-bit wrap-around of the bit operators [<<] and [|] is written out. *)

From Stdlib Require Import ZArith List Lia Bool.
From Stdlib Require Import Strings.Byte Strings.String Strings.Ascii.
From Stdlib Require Import DecimalNat.
From stdpp Require Import gmap list.

Local Open Scope Z_scope.

(** ** The JavaScript primitives the script relies on *)

Module JS.

(** A string is its sequence of UTF-16 code units. *)
Abbreviation jsstring := (list Z) (only parsing).

(** A string literal of the script (ASCII only). *)
Definition str (s : String.string) : jsstring :=
  map (fun c => Z.of_N (N_of_ascii c)) (list_ascii_of_string s).

(** A [Uint8Array]: every element is an integer between 0 and 255. *)
Abbreviation Uint8Array := (list byte) (only parsing).

Definition byte_val (b : byte) : Z := Z.of_N (Byte.to_N b).

(** The byte holding [z] (taken modulo 256, as a store into a [Uint8Array]
    does). *)
Definition byte_of_Z (z : Z) : byte :=
  match Byte.of_N (Z.to_N (z mod 256)) with Some b => b | None => x00 end.

(** [a.length] *)
Definition length {A} (a : list A) : Z := Z.of_nat (List.length a).

(** [a[pos]]; [None] stands for [undefined], which is what an index outside
    the array (negative, or at least [a.length]) reads. *)
Definition get (a : Uint8Array) (pos : Z) : option byte :=
  if 0 <=? pos then a !! Z.to_nat pos else None.

(** ToNumber followed by ToInt32 / ToUint16 on an array element:
    [undefined] becomes NaN, which both conversions send to 0. *)
Definition num (e : option byte) : Z :=
  match e with Some b => byte_val b | None => 0 end.

Definition ToInt32 (x : Z) : Z := (x + 2 ^ 31) mod 2 ^ 32 - 2 ^ 31.

(** [x << n] and [x | y]: operands and result are signed 32-bit integers. *)
Definition shl (x n : Z) : Z := ToInt32 (Z.shiftl (ToInt32 x) (Z.land n 31)).
Definition bor (x y : Z) : Z := ToInt32 (Z.lor (ToInt32 x) (ToInt32 y)).

(** [String.fromCharCode(e1, ..., en)] on array elements. *)
Definition fromCharCode (es : list (option byte)) : jsstring := map num es.

(** [a.slice(start, end)] of a typed array (negative indices count from the
    end, both are clamped to the array, an empty range gives an empty
    array). *)
Definition clamp_index (len i : Z) : Z :=
  if i <? 0 then Z.max (len + i) 0 else Z.min i len.

Definition slice {A} (a : list A) (start end_ : Z) : list A :=
  let len := length a in
  let k := clamp_index len start in
  let final := clamp_index len end_ in
  let count := Z.max (final - k) 0 in
  take (Z.to_nat count) (drop (Z.to_nat k) a).

(** [a.slice(start)]: the end defaults to [a.length]. *)
Definition slice_from {A} (a : list A) (start : Z) : list A :=
  slice a start (length a).

(** [a.indexOf(v)]: the first index holding [v], or -1. *)
Fixpoint indexOf (a : Uint8Array) (v : Z) : Z :=
  match a with
  | [] => -1
  | b :: rest =>
      if byte_val b =? v then 0
      else let i := indexOf rest v in if i <? 0 then -1 else i + 1
  end.

(** *** [new TextDecoder().decode(bytes)]

    The UTF-8 decoder of the Encoding standard in replacement mode: a
    malformed sequence yields U+FFFD and the offending byte is read again
    as the start of a new sequence. *)

Record utf8_state := Utf8State {
  code_point : Z;
  bytes_seen : Z;
  bytes_needed : Z;
  lower_boundary : Z;
  upper_boundary : Z
}.

Definition utf8_init : utf8_state := Utf8State 0 0 0 0x80 0xBF.

Inductive utf8_step := Emit (cp : Z) | Pending (s : utf8_state) | Malformed.

(** The handler when no continuation byte is awaited. *)
Definition utf8_lead (b : Z) : utf8_step :=
  if b <=? 0x7F then Emit b
  else if (0xC2 <=? b) && (b <=? 0xDF) then
    Pending (Utf8State (Z.land b 0x1F) 0 1 0x80 0xBF)
  else if (0xE0 <=? b) && (b <=? 0xEF) then
    Pending (Utf8State (Z.land b 0xF) 0 2
               (if b =? 0xE0 then 0xA0 else 0x80)
               (if b =? 0xED then 0x9F else 0xBF))
  else if (0xF0 <=? b) && (b <=? 0xF4) then
    Pending (Utf8State (Z.land b 0x7) 0 3
               (if b =? 0xF0 then 0x90 else 0x80)
               (if b =? 0xF4 then 0x8F else 0xBF))
  else Malformed.

Fixpoint utf8_run (s : utf8_state) (bs : list byte) : list Z :=
  match bs with
  | [] => if bytes_needed s =? 0 then [] else [0xFFFD]
  | b :: rest =>
      let v := byte_val b in
      let fresh :=
        match utf8_lead v with
        | Emit cp => cp :: utf8_run utf8_init rest
        | Pending s' => utf8_run s' rest
        | Malformed => 0xFFFD :: utf8_run utf8_init rest
        end in
      if bytes_needed s =? 0 then fresh
      else if (v <? lower_boundary s) || (upper_boundary s <? v) then
        0xFFFD :: fresh
      else
        let cp := Z.lor (Z.shiftl (code_point s) 6) (Z.land v 0x3F) in
        if bytes_seen s + 1 =? bytes_needed s then
          cp :: utf8_run utf8_init rest
        else
          utf8_run (Utf8State cp (bytes_seen s + 1) (bytes_needed s) 0x80 0xBF)
            rest
  end.

(** The code points of a byte sequence read as UTF-8. *)
Definition utf8_decode (bs : list byte) : list Z := utf8_run utf8_init bs.

(** A [TextDecoder] built without options does not keep a byte order mark:
    when the first code point decoded is U+FEFF it is dropped. *)
Definition drop_bom (cps : list Z) : list Z :=
  match cps with
  | cp :: rest => if cp =? 0xFEFF then rest else cps
  | [] => []
  end.

(** A code point as UTF-16 code units. *)
Definition utf16_units (cp : Z) : list Z :=
  if cp <? 0x10000 then [cp]
  else [0xD800 + (cp - 0x10000) / 0x400; 0xDC00 + (cp - 0x10000) mod 0x400].

Definition TextDecoder_decode (bs : list byte) : jsstring :=
  flat_map utf16_units (drop_bom (utf8_decode bs)).

(** *** A plain object [{}] whose properties hold strings

    The own properties are a finite map.  The object inherits from
    [Object.prototype]; the one inherited property with a setter is
    [__proto__], and that setter ignores a value that is neither an object
    nor [null]: assigning a string under the key ["__proto__"] leaves the
    object without any such own property. *)

Abbreviation Object := (gmap (list Z) (list Z)) (only parsing).

Inductive value := Undefined | Str (s : jsstring).

Definition proto_key : jsstring := str "__proto__".

(** [o[k] = v] with [v] a string. *)
Definition set (o : Object) (k v : jsstring) : Object :=
  if decide (k = proto_key) then o else <[k := v]> o.

(** [o[k]] and [k in o], for a key that [Object.prototype] does not
    define (the script asks only for ["workflow"] and ["prompt"]). *)
Definition get_prop (o : Object) (k : jsstring) : value :=
  match o !! k with Some v => Str v | None => Undefined end.

Definition has (k : jsstring) (o : Object) : bool :=
  match o !! k with Some _ => true | None => false end.

(** [!v] *)
Definition not (v : value) : bool :=
  match v with
  | Undefined => true
  | Str s => match s with [] => true | _ => false end
  end.

End JS.

(** ** [web/history-loader.js]: the inline reader *)

Module HistoryLoader.
Import JS.

(** [readUint32], the arrow function local to [parsePngTexts]. *)
Definition readUint32 (uint8 : Uint8Array) (pos : Z) : Z :=
  bor (bor (bor (shl (num (get uint8 pos)) 24)
                (shl (num (get uint8 (pos + 1))) 16))
           (shl (num (get uint8 (pos + 2))) 8))
      (num (get uint8 (pos + 3))).

(** The same four bytes read as an unsigned 32-bit big-endian integer, which
    is what the length field of a chunk declares. *)
Definition declared_length (uint8 : Uint8Array) (pos : Z) : Z :=
  num (get uint8 pos) * 2 ^ 24 + num (get uint8 (pos + 1)) * 2 ^ 16
  + num (get uint8 (pos + 2)) * 2 ^ 8 + num (get uint8 (pos + 3)).

(** One pass through the body of the [while] loop of [parsePngTexts], from
    the loop test on.  [None]: the loop is left (the test fails, or the
    [break] is taken); [Some (offset', texts')]: the variables after the
    pass. *)
Definition loop_body (uint8 : Uint8Array) (offset : Z) (texts : Object)
  : option (Z * Object) :=
  if offset + 8 <=? length uint8 then
    let length_ := readUint32 uint8 offset in
    let type := fromCharCode [get uint8 (offset + 4); get uint8 (offset + 5);
                              get uint8 (offset + 6); get uint8 (offset + 7)] in
    let dataStart := offset + 8 in
    let dataEnd := dataStart + length_ in
    if dataEnd >? length uint8 then None
    else
      let texts' :=
        if decide (type = str "tEXt") then
          let data := slice uint8 dataStart dataEnd in
          let nullIdx := indexOf data 0 in
          if nullIdx >=? 0 then
            let keyword := TextDecoder_decode (slice data 0 nullIdx) in
            let text := TextDecoder_decode (slice_from data (nullIdx + 1)) in
            set texts keyword text
          else texts
        else texts in
      Some (dataEnd + 4, texts')
  else None.

(** The [while] loop, run for at most [fuel] passes; [None] when the loop
    is still running after [fuel] passes. *)
Fixpoint while_loop (fuel : nat) (uint8 : Uint8Array) (offset : Z)
  (texts : Object) : option Object :=
  match fuel with
  | O => None
  | S fuel' =>
      match loop_body uint8 offset texts with
      | None => Some texts
      | Some (offset', texts') => while_loop fuel' uint8 offset' texts'
      end
  end.

Definition parsePngTexts (fuel : nat) (uint8 : Uint8Array) : option Object :=
  while_loop fuel uint8 8 ∅.

(** How the promise returned by [readPngWorkflow] settles. *)
Inductive settled := Resolve (v : value) | Reject (message : jsstring).

(** [readPngWorkflow(file, { which })], from the moment the file reader has
    delivered the bytes [arr] of the file. *)
Definition readPngWorkflow (fuel : nat) (arr : Uint8Array) (which : jsstring)
  : option settled :=
  match parsePngTexts fuel arr with
  | None => None
  | Some texts =>
      let key := if decide (which = str "prompt") then str "prompt"
                 else str "workflow" in
      if negb (has key texts) then
        Some (Reject (str "No '" ++ key ++ str "' metadata found in PNG."))
      else Some (Resolve (get_prop texts key))
  end.

(** The click handler of [loadWorkflowFromRemotePng], from the bytes [arr] of
    the fetched image up to the value handed to [JSON.parse]. *)
Inductive remote_lookup := Thrown (message : jsstring) | Raw (raw : value).

Definition loadWorkflowFromRemotePng_raw (fuel : nat) (arr : Uint8Array)
  : option remote_lookup :=
  match parsePngTexts fuel arr with
  | None => None
  | Some texts =>
      let raw := get_prop texts (str "workflow") in
      if not raw then Some (Thrown (str "No 'workflow' metadata found in PNG."))
      else Some (Raw raw)
  end.

(** *** The loop seen as a chunk walk

    The loop keeps no list of chunks.  The definitions below name what each
    pass reads, so that statements about "the chunks" of a buffer can be
    made; the lemmas further down tie them to [loop_body]. *)

Record Chunk := MkChunk {
  chunk_offset : Z;
  chunk_length : Z;
  chunk_type : jsstring;
  chunk_data : list byte
}.

(** The chunk a pass starting at [offset] looks at. *)
Definition chunk_view (uint8 : Uint8Array) (offset : Z) : Chunk :=
  let length_ := readUint32 uint8 offset in
  MkChunk offset length_
    (fromCharCode [get uint8 (offset + 4); get uint8 (offset + 5);
                   get uint8 (offset + 6); get uint8 (offset + 7)])
    (slice uint8 (offset + 8) (offset + 8 + length_)).

(** The offset after one pass; it does not depend on [texts]. *)
Definition next_offset (uint8 : Uint8Array) (offset : Z) : option Z :=
  fst <$> loop_body uint8 offset ∅.

(** The chunks the first [n] passes go through (fewer when the loop is left
    earlier) and the offset reached. *)
Fixpoint emitted (n : nat) (uint8 : Uint8Array) (offset : Z)
  : list Chunk * Z :=
  match n with
  | O => ([], offset)
  | S n' =>
      match next_offset uint8 offset with
      | None => ([], offset)
      | Some offset' =>
          let r := emitted n' uint8 offset' in
          (chunk_view uint8 offset :: fst r, snd r)
      end
  end.

(** The data of a text chunk cut at its first zero byte. *)
Fixpoint split_at_zero (data : list byte) : option (list byte * list byte) :=
  match data with
  | [] => None
  | b :: rest =>
      if byte_val b =? 0 then Some ([], rest)
      else match split_at_zero rest with
           | Some (pre, post) => Some (b :: pre, post)
           | None => None
           end
  end.

(** The keyword/text pair a chunk contributes, if any. *)
Definition text_entry (c : Chunk) : option (jsstring * jsstring) :=
  if decide (chunk_type c = str "tEXt") then
    match split_at_zero (chunk_data c) with
    | Some (pre, post) => Some (TextDecoder_decode pre, TextDecoder_decode post)
    | None => None
    end
  else None.

Definition store (texts : Object) (e : jsstring * jsstring) : Object :=
  set texts (fst e) (snd e).

(** The pairs assigned to [texts], in stream order, during the first [n]
    passes. *)
Definition text_entries (n : nat) (uint8 : Uint8Array)
  : list (jsstring * jsstring) :=
  omap text_entry (fst (emitted n uint8 8)).

Definition store_opt (texts : Object) (e : option (jsstring * jsstring))
  : Object :=
  match e with Some e => store texts e | None => texts end.

(** Chunks that lie back to back from [offset] on: each one starts where the
    12 + length bytes of the previous one end. *)
Fixpoint back_to_back (offset : Z) (cs : list Chunk) : Prop :=
  match cs with
  | [] => True
  | c :: cs' =>
      chunk_offset c = offset /\
      back_to_back (offset + 12 + chunk_length c) cs'
  end.

(** The bytes a list of chunks takes up: the sum of 12 + length. *)
Definition consumed (cs : list Chunk) : Z :=
  fold_right (fun c acc => 12 + chunk_length c + acc) 0 cs.

(** Last write wins for the keyword [k]: when the loop returns [m] and the
    last pair assigned under [k] is [(k, t)], then [m] binds [k] to [t]. *)
Definition last_write_wins (fuel : nat) (uint8 : Uint8Array) (k : jsstring)
  : Prop :=
  forall (m : Object) (t : jsstring) (es1 es2 : list (jsstring * jsstring)),
    parsePngTexts fuel uint8 = Some m ->
    text_entries fuel uint8 = es1 ++ (k, t) :: es2 ->
    k ∉ map fst es2 ->
    m !! k = Some t.

End HistoryLoader.

(** ** [web/history-loader.js]: the copy that goes through [/scripts/png.js]

    The module [/scripts/png.js] is not part of the repository; its three
    functions are parameters.  A call that throws is [Throw]. *)

Module ModuleLoader.
Import JS.

Inductive completion (A : Type) := Normal (a : A) | Throw (err : jsstring).
Arguments Normal {A} a.
Arguments Throw {A} err.

Record chunk := { name : jsstring; data : list byte }.
Record txt := { keyword : jsstring; text : jsstring }.

Section WithPngModule.
Variable parseChunks : Uint8Array -> completion (list chunk).
Variable decodeTextChunk : list byte -> completion txt.
Variable decodeZtextChunk : list byte -> completion txt.

(** The [for (const chunk of chunks)] loop of [readPngWorkflow] and of
    [loadWorkflowFromRemotePng]: a failing [decodeZtextChunk] is caught and
    logged, a failing [decodeTextChunk] is not. *)
Fixpoint collect (chunks : list chunk) (texts : Object) : completion Object :=
  match chunks with
  | [] => Normal texts
  | c :: rest =>
      if decide (name c = str "tEXt") then
        match decodeTextChunk (data c) with
        | Normal t => collect rest (set texts (keyword t) (text t))
        | Throw err => Throw err
        end
      else if decide (name c = str "zTXt") then
        match decodeZtextChunk (data c) with
        | Normal t => collect rest (set texts (keyword t) (text t))
        | Throw _ => collect rest texts
        end
      else collect rest texts
  end.

Definition collect_texts (arr : Uint8Array) : completion Object :=
  match parseChunks arr with
  | Normal chunks => collect chunks ∅
  | Throw err => Throw err
  end.

End WithPngModule.
End ModuleLoader.

(** ** The text-chunk codec of the design document

    The repository holds no encoder and no stand-alone [decodeTextChunk];
    the design document describes both (sections 4.2 and 4.4).  Strings are
    sequences of Unicode code points here. *)

Module Codec.
Import JS.

(** A 32-bit value as four bytes, most significant first. *)
Definition be32 (n : Z) : list byte :=
  [byte_of_Z (n / 2 ^ 24); byte_of_Z (n / 2 ^ 16); byte_of_Z (n / 2 ^ 8);
   byte_of_Z n].

(** Modelled from the spec: the CRC-32 of PNG (section 4.4: "standard PNG
    CRC, polynomial 0xEDB88320, initialized per the PNG specification"), of
    which the repository has no implementation.  The register starts at
    0xFFFFFFFF, each byte is folded in bit by bit, and the result is
    complemented. *)
Fixpoint crc_shift (n : nat) (c : Z) : Z :=
  match n with
  | O => c
  | S n' =>
      crc_shift n'
        (if Z.testbit c 0 then Z.lxor (Z.shiftr c 1) 0xEDB88320
         else Z.shiftr c 1)
  end.

Definition crc_update (c : Z) (b : byte) : Z :=
  crc_shift 8 (Z.lxor c (byte_val b)).

Definition crc32 (bs : list byte) : Z :=
  Z.lxor (fold_left crc_update bs 0xFFFFFFFF) 0xFFFFFFFF.

(** Modelled from the spec: the UTF-8 encoding of the text ("UTF-8-encoded
    text length", section 4.4), which the repository never produces. *)
Definition utf8_encode_cp (c : Z) : list byte :=
  if c <? 0x80 then [byte_of_Z c]
  else if c <? 0x800 then
    [byte_of_Z (0xC0 + c / 64); byte_of_Z (0x80 + c mod 64)]
  else if c <? 0x10000 then
    [byte_of_Z (0xE0 + c / 4096); byte_of_Z (0x80 + (c / 64) mod 64);
     byte_of_Z (0x80 + c mod 64)]
  else
    [byte_of_Z (0xF0 + c / 262144); byte_of_Z (0x80 + (c / 4096) mod 64);
     byte_of_Z (0x80 + (c / 64) mod 64); byte_of_Z (0x80 + c mod 64)].

Definition utf8_encode (t : list Z) : list byte := flat_map utf8_encode_cp t.

(** A chunk with its four fields (section 3 of the design document) and the
    byte sequence it stands for. *)
Record Chunk := MkChunk {
  length : Z;
  type : list byte;
  data : list byte;
  crc : Z
}.

Definition chunk_bytes (c : Chunk) : list byte :=
  be32 (length c) ++ type c ++ data c ++ be32 (crc c).

Definition tEXt : list byte := map byte_of_Z (str "tEXt").

(** The keyword, one byte per character. *)
Definition keyword_bytes (keyword : list Z) : list byte :=
  map byte_of_Z keyword.

(** Modelled from the spec: [encodeTextChunk] (section 4.4), absent from the
    repository: the length of the data, the type [tEXt], the keyword, one
    zero byte, the UTF-8 text, and the CRC-32 of type and data. *)
Definition encodeTextChunk (keyword text : list Z) : Chunk :=
  let d := keyword_bytes keyword ++ x00 :: utf8_encode text in
  MkChunk (JS.length d) tEXt d (crc32 (tEXt ++ d)).

(** Modelled from the spec: [decodeTextChunk] (section 4.2), which the
    script imports from [/scripts/png.js] and the repository does not hold:
    the data is split at its first zero byte, the bytes before it are the
    keyword and the bytes after it the text, both decoded as UTF-8; data
    without a zero byte has no decoding. *)
Definition decodeTextChunk (d : list byte) : option (list Z * list Z) :=
  match HistoryLoader.split_at_zero d with
  | Some (pre, post) => Some (utf8_decode pre, utf8_decode post)
  | None => None
  end.

(** An ASCII string, and a sequence of Unicode scalar values (what UTF-8 can
    encode). *)
Definition is_ascii (s : list Z) : Prop := Forall (fun c => 0 <= c < 0x80) s.

Definition is_scalar (c : Z) : Prop :=
  0 <= c <= 0x10FFFF /\ ~ (0xD800 <= c <= 0xDFFF).

Definition is_utf8_string (s : list Z) : Prop := Forall is_scalar s.

(** The round trip of section 8 for one keyword and one text. *)
Definition round_trips (keyword text : list Z) : Prop :=
  decodeTextChunk (data (encodeTextChunk keyword text)) = Some (keyword, text).

End Codec.

(** ** Sample buffers *)

Module Examples.
Import JS.

Definition bytes (l : list Z) : list byte := map byte_of_Z l.
Definition ascii_bytes (s : String.string) : list byte := bytes (str s).

Definition signature : list byte := bytes [137; 80; 78; 71; 13; 10; 26; 10].

(** A well-formed chunk: length, type, data, CRC. *)
Definition chunk (type : String.string) (data : list byte) : list byte :=
  Codec.chunk_bytes
    (Codec.MkChunk (length data) (ascii_bytes type) data
       (Codec.crc32 (ascii_bytes type ++ data))).

Definition IEND : list byte := chunk "IEND" [].

(** A picture without any text chunk. *)
Definition plain_png : list byte := signature ++ IEND.

(** [workflow] twice, with different texts. *)
Definition workflow_twice_png : list byte :=
  signature
  ++ chunk "tEXt" (ascii_bytes "workflow" ++ x00 :: ascii_bytes "first")
  ++ chunk "tEXt" (ascii_bytes "workflow" ++ x00 :: ascii_bytes "second")
  ++ IEND.

(** [workflow] with an empty text. *)
Definition empty_workflow_png : list byte :=
  signature ++ chunk "tEXt" (ascii_bytes "workflow" ++ [x00]) ++ IEND.

(** A compressed text chunk: [workflow], the method byte 0 and the zlib
    stream of [hello]. *)
Definition zTXt_png : list byte :=
  signature
  ++ chunk "zTXt"
       (ascii_bytes "workflow" ++ x00 :: x00 ::
        bytes [120; 156; 203; 72; 205; 201; 201; 7; 0; 6; 44; 2; 21])
  ++ IEND.

(** A text chunk whose data starts with the zero byte. *)
Definition empty_keyword_png : list byte :=
  signature ++ chunk "tEXt" (x00 :: ascii_bytes "orphan") ++ IEND.

(** A text chunk without any zero byte. *)
Definition no_separator_png : list byte :=
  signature ++ chunk "tEXt" (ascii_bytes "workflow") ++ IEND.

(** A good text chunk followed by a chunk that announces 100 bytes of data
    and holds 3. *)
Definition truncated_png : list byte :=
  signature
  ++ chunk "tEXt" (ascii_bytes "prompt" ++ x00 :: ascii_bytes "{}")
  ++ bytes [0; 0; 0; 100] ++ ascii_bytes "tEXt" ++ ascii_bytes "wor".

(** The keyword [__proto__], twice. *)
Definition proto_png : list byte :=
  signature
  ++ chunk "tEXt" (ascii_bytes "__proto__" ++ x00 :: ascii_bytes "first")
  ++ chunk "tEXt" (ascii_bytes "__proto__" ++ x00 :: ascii_bytes "second")
  ++ IEND.

(** A chunk whose length field is FF FF FF F4. *)
Definition looping_png : list byte :=
  signature ++ bytes [255; 255; 255; 244] ++ ascii_bytes "IDAT".

(** As [truncated_png], but the last chunk announces 4294967284 bytes of
    data (length field FF FF FF F4) and holds 3. *)
Definition oversized_png : list byte :=
  signature
  ++ chunk "tEXt" (ascii_bytes "prompt" ++ x00 :: ascii_bytes "{}")
  ++ bytes [255; 255; 255; 244] ++ ascii_bytes "tEXt" ++ ascii_bytes "wor".

(** A chunk whose length field is FF FF FF F8, which announces 4294967288
    bytes of data, and nothing behind its type. *)
Definition short_step_png : list byte :=
  signature ++ bytes [255; 255; 255; 248] ++ ascii_bytes "IDAT".

(** Sixteen bytes that are no picture at all. *)
Definition garbage : list byte :=
  bytes [0; 1; 2; 3; 4; 5; 6; 7; 255; 255; 255; 244; 0; 0; 0; 0].

End Examples.

(** ** Files made of whole chunks

    What a well-formed file looks like, to state what the reader makes of
    one. *)

Module Stream.
Import JS.

(** A chunk as it lies in a file: four type bytes, the data, four CRC
    bytes; the length field in front of it is that of the data. *)
Record chunk := MkChunk {
  type : list byte;
  data : list byte;
  crc : list byte
}.

Definition well_formed (c : chunk) : Prop :=
  List.length (type c) = 4%nat /\ List.length (crc c) = 4%nat
  /\ length (data c) < 2 ^ 31.

Definition chunk_bytes (c : chunk) : list byte :=
  Codec.be32 (length (data c)) ++ type c ++ data c ++ crc c.

Definition stream (cs : list chunk) : list byte := flat_map chunk_bytes cs.

(** The pair a chunk stands for: none unless its type is [tEXt] and its data
    holds a zero byte. *)
Definition entry_of (c : chunk) : option (jsstring * jsstring) :=
  if decide (map byte_val (type c) = str "tEXt") then
    match HistoryLoader.split_at_zero (data c) with
    | Some (pre, post) => Some (TextDecoder_decode pre, TextDecoder_decode post)
    | None => None
    end
  else None.

Definition entries (cs : list chunk) : list (jsstring * jsstring) :=
  omap entry_of cs.

(** A text chunk. *)
Definition tEXt (keyword text crc : list byte) : Stream.chunk :=
  Stream.MkChunk [x74; x45; x58; x74] (keyword ++ x00 :: text) crc.

(** The characters of ASCII bytes. *)
Definition chars (bs : list byte) : jsstring := map byte_val bs.

Definition ascii (bs : list byte) : Prop :=
  Forall (fun b => byte_val b < 0x80) bs.

End Stream.

(** ** [web/history-loader.js]: from the bytes of a picture to the call of
    [app.loadGraphData]

    [JSON.parse] belongs to the host; it is a parameter, [None] standing for
    the [SyntaxError] it throws. *)

Module Loaders.
Import JS HistoryLoader.

Section WithJSON.
Variable json : Type.
Variable JSON_parse : jsstring -> option json.

(** What a load ends with: [app.loadGraphData] is called with a workflow, or
    an error with this message is caught and shown. *)
Inductive outcome := Load (workflow : json) | Fail (message : jsstring).

(** [JSON.parse(raw)] inside its [try]: the argument is turned into a string
    first, so [undefined] is parsed as the text [undefined]. *)
Definition parse_workflow (raw : value) : outcome :=
  let text := match raw with Str s => s | Undefined => str "undefined" end in
  match JSON_parse text with
  | Some parsed => Load parsed
  | None => Fail (str "Workflow metadata is not valid JSON.")
  end.

(** The [onFiles] handler of [loadWorkflowFromPng], from the bytes of the
    picked file on. *)
Definition loadWorkflowFromPng (fuel : nat) (arr : Uint8Array)
  : option outcome :=
  match readPngWorkflow fuel arr (str "workflow") with
  | None => None
  | Some (Reject message) => Some (Fail message)
  | Some (Resolve raw) => Some (parse_workflow raw)
  end.

(** The click handler of [loadWorkflowFromRemotePng], from the bytes of the
    fetched picture on. *)
Definition loadWorkflowFromRemotePng (fuel : nat) (arr : Uint8Array)
  : option outcome :=
  match loadWorkflowFromRemotePng_raw fuel arr with
  | None => None
  | Some (Thrown message) => Some (Fail message)
  | Some (Raw raw) => Some (parse_workflow raw)
  end.

End WithJSON.
Arguments Load {json} workflow.
Arguments Fail {json} message.
End Loaders.

(** ** The chunk loop of the copy that goes through the PNG module, chunk
    by chunk *)

Module ModuleWalk.
Import JS ModuleLoader.

(** What one chunk adds in the copy that goes through the PNG module, when
    nothing is thrown out of the loop: a [tEXt] chunk its decoding, a [zTXt]
    chunk its decoding unless that throws, any other chunk nothing. *)
Definition entry (decodeTextChunk decodeZtextChunk : list byte -> completion txt)
  (c : chunk) : option (jsstring * jsstring) :=
  if decide (name c = str "tEXt") then
    match decodeTextChunk (data c) with
    | Normal t => Some (keyword t, text t)
    | Throw _ => None
    end
  else if decide (name c = str "zTXt") then
    match decodeZtextChunk (data c) with
    | Normal t => Some (keyword t, text t)
    | Throw _ => None
    end
  else None.

(** A [tEXt] chunk whose decoding throws. *)
Definition throws (decodeTextChunk : list byte -> completion txt)
  (c : chunk) (err : jsstring) : Prop :=
  name c = str "tEXt" /\ decodeTextChunk (data c) = Throw err.

End ModuleWalk.

(** ** [web/history-loader.js]: the Load Text button of [buildDialog]

    The graph of the host is seen through [app.graph.getNodeById]: a finite
    map from node ids to nodes.  Ids and texts are whatever the saved file
    and the host hold; only equality of ids is used. *)

Module LoadText.
Import JS.

Section WithGraph.
Variable K : Type.
Context {EqK : EqDecision K} {CountK : Countable K}.
Variable V : Type.

Record widget := Widget { w_name : jsstring; w_value : V }.

(** [widgets] is [None] when [node.widgets] is missing. *)
Record node := Node { widgets : option (list widget) }.

Record entry := Entry { id : K; text : V }.

(** [node.widgets.find((w) => w.name === "text")] followed by
    [textWidget.value = v]: the first widget named [text] gets the value;
    [None] when there is no such widget. *)
Fixpoint set_text (ws : list widget) (v : V) : option (list widget) :=
  match ws with
  | [] => None
  | w :: rest =>
      if decide (w_name w = str "text") then Some (Widget (w_name w) v :: rest)
      else match set_text rest v with
           | Some rest' => Some (w :: rest')
           | None => None
           end
  end.

Record state := State {
  graph : gmap K node;
  applied : Z;
  missing : Z
}.

(** The callback of [clipTexts.forEach]. *)
Definition visit (st : state) (e : entry) : state :=
  match graph st !! id e with
  | None => State (graph st) (applied st) (missing st + 1)
  | Some nd =>
      match widgets nd with
      | None => State (graph st) (applied st) (missing st + 1)
      | Some ws =>
          match set_text ws (text e) with
          | Some ws' =>
              State (<[id e := Node (Some ws')]> (graph st))
                (applied st + 1) (missing st)
          | None => State (graph st) (applied st) (missing st + 1)
          end
      end
  end.

Inductive result := Status (st : state) | Error (message : jsstring).

(** The click handler from the fetched save on: [clip_texts] is the field
    of that name, [None] when it is missing. *)
Definition loadTexts (clip_texts : option (list entry)) (g : gmap K node)
  : result :=
  let clipTexts := match clip_texts with Some l => l | None => [] end in
  if JS.length clipTexts =? 0 then
    Error (str "No CLIP text data in this save.")
  else Status (fold_left visit clipTexts (State g 0 0)).

(** What the entries make of the node with id [k]. *)
Definition write (nd : node) (v : V) : node :=
  match widgets nd with
  | Some ws =>
      match set_text ws v with
      | Some ws' => Node (Some ws')
      | None => nd
      end
  | None => nd
  end.

Definition written (es : list entry) (k : K) (nd : node) : node :=
  fold_left (fun nd e => if decide (id e = k) then write nd (text e) else nd)
    es nd.

(** An entry that finds its widget. *)
Definition applies (g : gmap K node) (e : entry) : bool :=
  match g !! id e with
  | Some (Node (Some ws)) =>
      match set_text ws (text e) with Some _ => true | None => false end
  | _ => false
  end.

(** The graph read without the handler: the node an entry addresses is
    there, has widgets, and one of them is named [text]. *)
Definition names_text (w : widget) : bool :=
  bool_decide (w_name w = str "text").

Definition has_text_widget (g : gmap K node) (e : entry) : bool :=
  match g !! id e with
  | Some nd =>
      match widgets nd with
      | Some ws => existsb names_text ws
      | None => false
      end
  | None => false
  end.

End WithGraph.
Arguments Status {K EqK CountK V} st.
Arguments Error {K EqK CountK V} message.
End LoadText.

(** ** [web/history-loader.js]: [addMenuButton]

    Of the page only what the function asks for is kept: whether the menu
    is there and shown, which ids its children carry, the floating bar if
    it exists, and the ids found elsewhere in the page. *)

Module Menu.
Import JS.

Record menu_el := MenuEl {
  displayed : bool;
  children : list jsstring
}.

Record document := Document {
  menu : option menu_el;
  fab : option (list jsstring);
  elsewhere : list jsstring
}.

(** The ids of all elements of the page. *)
Definition ids (d : document) : list jsstring :=
  match menu d with Some m => children m | None => [] end
  ++ match fab d with Some l => l | None => [] end
  ++ elsewhere d.

(** [document.querySelector("#" + id)] finds something. *)
Definition existing (d : document) (id : jsstring) : bool :=
  bool_decide (id ∈ ids d).

(** The five buttons, in the order in which they are appended. *)
Definition buttons : list jsstring :=
  [str "prompt-history-load"; str "prompt-history-save";
   str "prompt-history-save-text"; str "prompt-history-load-png";
   str "prompt-history-load-remote"].

(** The part of [addMenuButton] behind the test for the menu [m]: the
    buttons that do not exist yet are appended to the menu when it is
    shown, and otherwise to the floating bar, which is created first if it
    is not there. *)
Definition place_buttons (d : document) (m : menu_el) : document :=
  let fresh := filter (fun id => existing d id = false) buttons in
  if displayed m then
    Document (Some (MenuEl (displayed m) (children m ++ fresh)))
      (fab d) (elsewhere d)
  else
    let bar := match fab d with Some l => l | None => [] end in
    Document (menu d) (Some (bar ++ fresh)) (elsewhere d).

Inductive outcome := Placed (attempt : Z) (d : document) | GaveUp.

(** [addMenuButton(attempt)].  The page may change while a timer runs:
    [page n] is the page as the call numbered [n] finds it.  Each recursive
    call is one timer of 250 ms. *)
Fixpoint addMenuButton (fuel : nat) (page : Z -> document) (attempt : Z)
  : option outcome :=
  match fuel with
  | O => None
  | S fuel' =>
      match menu (page attempt) with
      | None =>
          if attempt <? 20 then addMenuButton fuel' page (attempt + 1)
          else Some GaveUp
      | Some m => Some (Placed attempt (place_buttons (page attempt) m))
      end
  end.

End Menu.

(** ** [web/history-loader.js]: choosing a picture of the output directory *)

Module Chooser.
Import JS.

(** White space as [parseInt] skips it. *)
Definition is_space (c : Z) : bool :=
  bool_decide (c ∈ [9; 10; 11; 12; 13; 32; 160; 5760; 8232; 8233; 8239; 8287;
                    12288; 65279])
  || ((8192 <=? c) && (c <=? 8202)).

Fixpoint skip_spaces (s : jsstring) : jsstring :=
  match s with
  | c :: rest => if is_space c then skip_spaces rest else s
  | [] => []
  end.

Definition is_digit (c : Z) : bool := (48 <=? c) && (c <=? 57).

(** The value of the longest run of decimal digits at the start of [s]. *)
Fixpoint digits_value (acc : Z) (s : jsstring) : Z :=
  match s with
  | c :: rest =>
      if is_digit c then digits_value (acc * 10 + (c - 48)) rest else acc
  | [] => acc
  end.

(** [parseInt(s, 10)]; [None] is NaN.  The integer is kept exact: the
    rounding of numbers beyond 2^53 does not change any comparison with the
    length of an array. *)
Definition parseInt (s : jsstring) : option Z :=
  let s := skip_spaces s in
  let '(sign, s) :=
    match s with
    | 45 :: rest => (-1, rest)
    | 43 :: rest => (1, rest)
    | _ => (1, s)
    end in
  match s with
  | c :: _ => if is_digit c then Some (sign * digits_value 0 s) else None
  | [] => None
  end.

(** An entry of the list the server sends: [path] and [name] are strings or
    missing. *)
Record file := File { path : value; name : value }.

Inductive choice :=
  | Invalid
  | Picked (relPath : value)
  | TypeError.

(** From the text of the selection to [relPath]: the index is parsed and
    checked, then [files[idx].path || files[idx].name] is taken; reading a
    property of [undefined] would be a [TypeError]. *)
Definition choose (files : list file) (selection : jsstring) : choice :=
  match parseInt selection with
  | None => Invalid
  | Some idx =>
      if (idx <? 0) || (idx >=? JS.length files) then Invalid
      else
        match files !! Z.to_nat idx with
        | None => TypeError
        | Some f => Picked (if JS.not (path f) then name f else path f)
        end
  end.

(** The decimal digits of a natural number, as the [value] of an option
    holds its index. *)
Fixpoint uint_chars (d : Decimal.uint) : jsstring :=
  match d with
  | Decimal.Nil => []
  | Decimal.D0 d => 48 :: uint_chars d
  | Decimal.D1 d => 49 :: uint_chars d
  | Decimal.D2 d => 50 :: uint_chars d
  | Decimal.D3 d => 51 :: uint_chars d
  | Decimal.D4 d => 52 :: uint_chars d
  | Decimal.D5 d => 53 :: uint_chars d
  | Decimal.D6 d => 54 :: uint_chars d
  | Decimal.D7 d => 55 :: uint_chars d
  | Decimal.D8 d => 56 :: uint_chars d
  | Decimal.D9 d => 57 :: uint_chars d
  end.

Definition index_text (i : nat) : jsstring := uint_chars (Nat.to_uint i).

End Chooser.

(** ** Sample files, saves and pages *)

Module Samples.
Import JS Examples.

Definition prompt_chunk : Stream.chunk :=
  Stream.tEXt (ascii_bytes "prompt") (ascii_bytes "{}") (bytes [1; 2; 3; 4]).

Definition workflow_chunk : Stream.chunk :=
  Stream.tEXt (ascii_bytes "workflow") (ascii_bytes "{}") (bytes [0; 0; 0; 0]).

Definition iend_chunk : Stream.chunk :=
  Stream.MkChunk (ascii_bytes "IEND") [] (bytes [174; 66; 96; 130]).

(** A text chunk, then a header with the length field FF FF FF F4. *)
Definition stuck_file : list byte :=
  signature ++ Stream.stream [prompt_chunk]
  ++ bytes [255; 255; 255; 244] ++ ascii_bytes "tEXt".

(** A parser that knows one text only. *)
Definition parse_braces (s : jsstring) : option jsstring :=
  if decide (s = str "{}") then Some s else None.

(** A decoder of the PNG module that throws on empty data. *)
Definition decode_or_throw (d : list byte)
  : ModuleLoader.completion ModuleLoader.txt :=
  match d with
  | [] => ModuleLoader.Throw (str "no data")
  | _ => ModuleLoader.Normal
           {| ModuleLoader.keyword := str "k";
              ModuleLoader.text := map byte_val d |}
  end.

Definition module_chunk (name : String.string) (d : list byte)
  : ModuleLoader.chunk :=
  {| ModuleLoader.name := str name; ModuleLoader.data := d |}.

(** A graph with one node that has a [text] widget. *)
Definition one_node : gmap Z (LoadText.node jsstring) :=
  {[ 1 := LoadText.Node jsstring
            (Some [LoadText.Widget jsstring (str "seed") (str "7");
                   LoadText.Widget jsstring (str "text") (str "old")]) ]}.

(** A page whose menu is shown and holds the Save Now button already. *)
Definition page_with_save : Menu.document :=
  Menu.Document (Some (Menu.MenuEl true [str "prompt-history-save"])) None [].

Definition two_files : list Chooser.file :=
  [Chooser.File (Str (str "a.png")) Undefined;
   Chooser.File Undefined (Str (str "sub/b.png"))].

End Samples.

(** ** Proof tactics *)

(** Linear arithmetic with division and remainder by constants. *)
Ltac dlia := Z.div_mod_to_equations; lia.

(** Settle the comparisons that occur in the goal. *)
Ltac decide_tests :=
  repeat match goal with
    | |- context [?a <=? ?b] => destruct (Z.leb_spec a b); try lia
    | |- context [?a <? ?b] => destruct (Z.ltb_spec a b); try lia
    | |- context [?a =? ?b] => destruct (Z.eqb_spec a b); try lia
    end; cbn [andb orb negb].

(** * Properties *)

(** ** Bytes and slices *)

Section BasicFacts.
Import JS.

Lemma byte_val_bounds b : 0 <= byte_val b < 256.
Proof.
  unfold byte_val. pose proof (Byte.to_N_bounded b). lia.
Qed.

Lemma byte_val_inj b1 b2 : byte_val b1 = byte_val b2 -> b1 = b2.
Proof.
  unfold byte_val. intros H. apply N2Z.inj in H.
  pose proof (Byte.of_to_N b1) as H1. pose proof (Byte.of_to_N b2) as H2.
  congruence.
Qed.

Lemma byte_val_zero b : byte_val b = 0 <-> b = x00.
Proof.
  split; [intros H; apply byte_val_inj; exact H | intros ->; reflexivity].
Qed.

Lemma length_nonneg {A} (a : list A) : 0 <= length a.
Proof. unfold length. lia. Qed.

Lemma length_app {A} (a b : list A) : length (a ++ b) = length a + length b.
Proof. unfold length. rewrite List.length_app. lia. Qed.

Lemma slice_prefix {A} (pre post : list A) :
  slice (pre ++ post) 0 (length pre) = pre.
Proof.
  unfold slice, clamp_index. rewrite length_app.
  pose proof (length_nonneg pre). pose proof (length_nonneg post).
  destruct (Z.ltb_spec (length pre) 0); [lia|].
  change (0 <? 0) with false. cbn iota.
  rewrite Z.min_l, Z.min_l by lia.
  rewrite Z.sub_0_r, Z.max_l by lia.
  change (Z.to_nat 0) with 0%nat. rewrite drop_0.
  unfold length. rewrite Nat2Z.id. apply take_app_length.
Qed.

Lemma slice_from_suffix {A} (pre post : list A) :
  slice_from (pre ++ post) (length pre) = post.
Proof.
  unfold slice_from, slice, clamp_index. rewrite length_app.
  pose proof (length_nonneg pre). pose proof (length_nonneg post).
  destruct (Z.ltb_spec (length pre) 0); [lia|].
  destruct (Z.ltb_spec (length pre + length post) 0); [lia|].
  rewrite Z.min_l, Z.min_l by lia.
  replace (length pre + length post - length pre) with (length post) by lia.
  rewrite Z.max_l by lia. unfold length. rewrite !Nat2Z.id.
  rewrite drop_app_length. apply firstn_all.
Qed.

End BasicFacts.

(** ** Signed 32-bit arithmetic and [readUint32] *)

Section Int32Facts.
Import JS HistoryLoader.

Lemma num_bounds e : 0 <= num e < 256.
Proof. destruct e as [b|]; simpl; [apply byte_val_bounds | lia]. Qed.

Lemma ToInt32_mod x : ToInt32 x mod 2 ^ 32 = x mod 2 ^ 32.
Proof. unfold ToInt32. Z.div_mod_to_equations. lia. Qed.

Lemma ToInt32_congr x y : x mod 2 ^ 32 = y mod 2 ^ 32 -> ToInt32 x = ToInt32 y.
Proof. unfold ToInt32. Z.div_mod_to_equations. lia. Qed.

Lemma ToInt32_small x : - 2 ^ 31 <= x < 2 ^ 31 -> ToInt32 x = x.
Proof. unfold ToInt32. Z.div_mod_to_equations. lia. Qed.

Lemma lor_mod_2_32 x y :
  Z.lor (ToInt32 x) (ToInt32 y) mod 2 ^ 32 = Z.lor x y mod 2 ^ 32.
Proof.
  rewrite <- !Z.land_ones by lia. rewrite !Z.land_lor_distr_l.
  rewrite !Z.land_ones by lia. rewrite !ToInt32_mod. reflexivity.
Qed.

Lemma bor_lor x y : bor x y = ToInt32 (Z.lor x y).
Proof. unfold bor. apply ToInt32_congr. apply lor_mod_2_32. Qed.

Lemma bor_ToInt32_l x y : bor (ToInt32 x) y = ToInt32 (Z.lor x y).
Proof.
  rewrite bor_lor. apply ToInt32_congr.
  rewrite <- !Z.land_ones by lia. rewrite !Z.land_lor_distr_l.
  rewrite !Z.land_ones by lia. rewrite ToInt32_mod. reflexivity.
Qed.

Lemma lor_high_low hi lo k :
  0 <= k -> 0 <= lo < 2 ^ k -> Z.lor (hi * 2 ^ k) lo = hi * 2 ^ k + lo.
Proof.
  intros Hk Hlo. symmetry. apply Z.add_nocarry_lor. apply Z.bits_inj'.
  intros n Hn. rewrite Z.land_spec, Z.bits_0.
  destruct (Z.lt_ge_cases n k) as [Hlt|Hge].
  - rewrite Z.mul_pow2_bits_low by lia. reflexivity.
  - assert (Z.testbit lo n = false) as ->; [|apply andb_false_r].
    destruct (Z.eq_dec lo 0) as [->|Hnz]; [apply Z.bits_0|].
    apply Z.bits_above_log2; [lia|].
    assert (Z.log2 lo < k); [|lia].
    apply Z.log2_lt_pow2; lia.
Qed.

Lemma shl_byte v n :
  0 <= v < 256 -> 0 <= n < 32 -> shl v n = ToInt32 (v * 2 ^ n).
Proof.
  intros Hv Hn. unfold shl. rewrite (ToInt32_small v) by lia.
  change 31 with (Z.ones 5). rewrite Z.land_ones by lia.
  rewrite Z.mod_small by (change (2 ^ 5) with 32; lia).
  rewrite Z.shiftl_mul_pow2 by lia. reflexivity.
Qed.

(** [readUint32] is the big-endian value of the four bytes, wrapped to a
    signed 32-bit integer. *)
Lemma readUint32_signed (uint8 : list byte) pos :
  readUint32 uint8 pos = ToInt32 (declared_length uint8 pos).
Proof.
  unfold readUint32, declared_length.
  pose proof (num_bounds (get uint8 pos)) as H0.
  pose proof (num_bounds (get uint8 (pos + 1))) as H1.
  pose proof (num_bounds (get uint8 (pos + 2))) as H2.
  pose proof (num_bounds (get uint8 (pos + 3))) as H3.
  set (a := num (get uint8 pos)) in *.
  set (b := num (get uint8 (pos + 1))) in *.
  set (c := num (get uint8 (pos + 2))) in *.
  set (d := num (get uint8 (pos + 3))) in *.
  rewrite !shl_byte by lia.
  rewrite (ToInt32_small (b * 2 ^ 16)) by lia.
  rewrite (ToInt32_small (c * 2 ^ 8)) by lia.
  rewrite !bor_ToInt32_l. f_equal.
  rewrite (lor_high_low a (b * 2 ^ 16) 24) by lia.
  replace (a * 2 ^ 24 + b * 2 ^ 16) with ((a * 2 ^ 8 + b) * 2 ^ 16) by lia.
  rewrite (lor_high_low _ (c * 2 ^ 8) 16) by lia.
  replace ((a * 2 ^ 8 + b) * 2 ^ 16 + c * 2 ^ 8)
    with ((a * 2 ^ 16 + b * 2 ^ 8 + c) * 2 ^ 8) by lia.
  rewrite (lor_high_low _ d 8) by lia. lia.
Qed.

Lemma declared_length_bounds (uint8 : list byte) pos :
  0 <= declared_length uint8 pos < 2 ^ 32.
Proof.
  unfold declared_length.
  pose proof (num_bounds (get uint8 pos)).
  pose proof (num_bounds (get uint8 (pos + 1))).
  pose proof (num_bounds (get uint8 (pos + 2))).
  pose proof (num_bounds (get uint8 (pos + 3))). lia.
Qed.

(** Below 2^31 the two readings agree; from 2^31 on the code reads a
    negative length. *)
Lemma readUint32_cases (uint8 : list byte) pos :
  readUint32 uint8 pos =
    if declared_length uint8 pos <? 2 ^ 31 then declared_length uint8 pos
    else declared_length uint8 pos - 2 ^ 32.
Proof.
  rewrite readUint32_signed. pose proof (declared_length_bounds uint8 pos).
  destruct (Z.ltb_spec (declared_length uint8 pos) (2 ^ 31)).
  - apply ToInt32_small. lia.
  - unfold ToInt32. Z.div_mod_to_equations. lia.
Qed.

End Int32Facts.

(** ** One pass of the loop *)

Section SplitFacts.
Import JS HistoryLoader.

Lemma split_at_zero_Some data pre post :
  split_at_zero data = Some (pre, post) ->
  data = pre ++ x00 :: post /\ (x00 ∉ pre) /\ indexOf data 0 = length pre.
Proof.
  revert pre post. induction data as [|b rest IH]; intros pre post; simpl.
  - discriminate.
  - destruct (Z.eqb_spec (byte_val b) 0) as [Hb|Hb].
    + intros [= <- <-]. apply byte_val_zero in Hb as ->.
      split; [reflexivity|]. split; [apply not_elem_of_nil | reflexivity].
    + destruct (split_at_zero rest) as [[pre' post']|] eqn:Hs; [|discriminate].
      intros [= <- <-]. destruct (IH _ _ eq_refl) as (-> & Hnot & Hidx).
      split; [reflexivity|]. split.
      * rewrite not_elem_of_cons. split; [|exact Hnot].
        intros Heq. apply Hb. rewrite <- Heq. reflexivity.
      * rewrite Hidx. pose proof (length_nonneg pre').
        destruct (Z.ltb_spec (length pre') 0); [lia|].
        unfold length. simpl List.length. lia.
Qed.

Lemma split_at_zero_None data :
  split_at_zero data = None -> (x00 ∉ data) /\ indexOf data 0 = -1.
Proof.
  induction data as [|b rest IH]; simpl.
  - intros _. split; [apply not_elem_of_nil | reflexivity].
  - destruct (Z.eqb_spec (byte_val b) 0) as [Hb|Hb]; [discriminate|].
    destruct (split_at_zero rest) as [[pre' post']|]; [discriminate|].
    intros _. destruct (IH eq_refl) as [Hnot Hidx]. split.
    + rewrite not_elem_of_cons. split; [|exact Hnot].
      intros Heq. apply Hb. rewrite <- Heq. reflexivity.
    + rewrite Hidx. reflexivity.
Qed.

Lemma split_at_zero_first pre post :
  x00 ∉ pre -> split_at_zero (pre ++ x00 :: post) = Some (pre, post).
Proof.
  induction pre as [|b pre IH]; intros Hnot; simpl.
  - reflexivity.
  - apply not_elem_of_cons in Hnot as [Hb Hnot].
    destruct (Z.eqb_spec (byte_val b) 0) as [Hz|Hz].
    + apply byte_val_zero in Hz. congruence.
    + rewrite (IH Hnot). reflexivity.
Qed.


Lemma loop_body_Some uint8 offset texts offset' texts' :
  loop_body uint8 offset texts = Some (offset', texts') ->
  offset + 8 <= length uint8 /\
  offset + 8 + readUint32 uint8 offset <= length uint8 /\
  offset' = offset + 12 + readUint32 uint8 offset /\
  texts' = store_opt texts (text_entry (chunk_view uint8 offset)).
Proof.
  unfold loop_body.
  destruct (Z.leb_spec (offset + 8) (length uint8)) as [Hle|]; [|discriminate].
  destruct (Z.gtb_spec (offset + 8 + readUint32 uint8 offset) (length uint8))
    as [|Hend]; [discriminate|].
  intros [= <- <-]. repeat split; try lia.
  unfold text_entry, chunk_view. cbn [chunk_type chunk_data].
  destruct (decide _) as [_|_]; [|reflexivity].
  set (data := slice _ _ _).
  destruct (split_at_zero data) as [[pre post]|] eqn:Hs.
  - apply split_at_zero_Some in Hs as (Hd & _ & Hidx).
    rewrite Hidx. pose proof (length_nonneg pre).
    destruct (Z.geb_spec (length pre) 0); [|lia].
    rewrite Hd, slice_prefix.
    replace (pre ++ x00 :: post) with ((pre ++ [x00]) ++ post)
      by (rewrite <- app_assoc; reflexivity).
    replace (length pre + 1) with (length (pre ++ [x00]))
      by (rewrite length_app; reflexivity).
    rewrite slice_from_suffix. reflexivity.
  - apply split_at_zero_None in Hs as [_ ->]. reflexivity.
Qed.

Lemma loop_body_None uint8 offset texts :
  loop_body uint8 offset texts = None <->
  length uint8 < offset + 8 \/
  length uint8 < offset + 8 + readUint32 uint8 offset.
Proof.
  unfold loop_body.
  destruct (Z.leb_spec (offset + 8) (length uint8)) as [Hle|].
  - destruct (Z.gtb_spec (offset + 8 + readUint32 uint8 offset) (length uint8)).
    + split; [intros _; right; lia | reflexivity].
    + split; [discriminate | lia].
  - split; [intros _; left; lia | reflexivity].
Qed.

Lemma loop_body_exit_any uint8 offset texts1 texts2 :
  loop_body uint8 offset texts1 = None -> loop_body uint8 offset texts2 = None.
Proof. rewrite !loop_body_None. tauto. Qed.

Lemma loop_body_next uint8 offset texts offset' texts' :
  loop_body uint8 offset texts = Some (offset', texts') ->
  next_offset uint8 offset = Some offset'.
Proof.
  intros H. unfold next_offset.
  destruct (loop_body uint8 offset ∅) as [[o t]|] eqn:He.
  - apply loop_body_Some in H as (_ & _ & -> & _).
    apply loop_body_Some in He as (_ & _ & -> & _). reflexivity.
  - apply (loop_body_exit_any _ _ _ texts) in He. congruence.
Qed.

Lemma next_offset_Some uint8 offset offset' texts :
  next_offset uint8 offset = Some offset' ->
  loop_body uint8 offset texts =
    Some (offset', store_opt texts (text_entry (chunk_view uint8 offset))).
Proof.
  unfold next_offset. intros H.
  destruct (loop_body uint8 offset ∅) as [[o t]|] eqn:He; [|discriminate].
  injection H as ->.
  destruct (loop_body uint8 offset texts) as [[o2 t2]|] eqn:He2.
  - apply loop_body_Some in He as (_ & _ & -> & _).
    apply loop_body_Some in He2 as (_ & _ & -> & ->). reflexivity.
  - apply (loop_body_exit_any _ _ _ ∅) in He2. congruence.
Qed.

Lemma next_offset_None uint8 offset texts :
  next_offset uint8 offset = None -> loop_body uint8 offset texts = None.
Proof.
  unfold next_offset. intros H.
  destruct (loop_body uint8 offset ∅) as [[o t]|] eqn:He; [discriminate|].
  exact (loop_body_exit_any _ _ _ texts He).
Qed.

End SplitFacts.

(** ** The loop and the chunks it goes through *)

Section WalkFacts.
Import JS HistoryLoader.

Lemma fold_store_opt {A} (f : A -> option (list Z * list Z)) (cs : list A)
  (texts : gmap (list Z) (list Z)) :
  fold_left store_opt (map f cs) texts = fold_left store (omap f cs) texts.
Proof.
  revert texts. induction cs as [|c cs IH]; intros texts; simpl; [reflexivity|].
  rewrite IH. destruct (f c); reflexivity.
Qed.

(** A loop that is left after the chunks of [emitted] returns the fold of
    their entries. *)
Lemma while_loop_complete n uint8 : forall offset texts fuel,
  next_offset uint8 (snd (emitted n uint8 offset)) = None ->
  (List.length (fst (emitted n uint8 offset)) < fuel)%nat ->
  while_loop fuel uint8 offset texts =
    Some (fold_left store_opt
            (map text_entry (fst (emitted n uint8 offset))) texts).
Proof.
  induction n as [|n IH]; intros offset texts fuel; simpl.
  - intros Hexit Hfuel. destruct fuel as [|fuel]; [simpl in Hfuel; lia|].
    simpl. rewrite (next_offset_None _ _ texts Hexit). reflexivity.
  - destruct (next_offset uint8 offset) as [offset'|] eqn:Hn; simpl.
    + intros Hexit Hfuel. destruct fuel as [|fuel]; [lia|].
      simpl. rewrite (next_offset_Some _ _ _ texts Hn).
      apply IH; [exact Hexit | lia].
    + intros _ Hfuel. destruct fuel as [|fuel]; [simpl in Hfuel; lia|].
      simpl. rewrite (next_offset_None _ _ texts Hn). reflexivity.
Qed.

(** Conversely, a loop that returns was left after the chunks of [emitted]. *)
Lemma while_loop_sound fuel uint8 : forall offset texts m,
  while_loop fuel uint8 offset texts = Some m ->
  m = fold_left store_opt (map text_entry (fst (emitted fuel uint8 offset))) texts
  /\ next_offset uint8 (snd (emitted fuel uint8 offset)) = None
  /\ (List.length (fst (emitted fuel uint8 offset)) < fuel)%nat.
Proof.
  induction fuel as [|fuel IH]; intros offset texts m; simpl; [discriminate|].
  destruct (loop_body uint8 offset texts) as [[offset' texts']|] eqn:Hb.
  - intros Hw. rewrite (loop_body_next _ _ _ _ _ Hb). simpl.
    apply loop_body_Some in Hb as (_ & _ & _ & ->).
    destruct (IH _ _ _ Hw) as (-> & Hexit & Hlen).
    split; [reflexivity|]. split; [exact Hexit | lia].
  - intros [= <-].
    assert (next_offset uint8 offset = None) as Hn.
    { unfold next_offset. rewrite (loop_body_exit_any _ _ _ ∅ Hb). reflexivity. }
    rewrite Hn. simpl. split; [reflexivity|]. split; [exact Hn | lia].
Qed.

Lemma parsePngTexts_entries fuel uint8 m :
  parsePngTexts fuel uint8 = Some m ->
  m = fold_left store (text_entries fuel uint8) ∅.
Proof.
  intros H. apply while_loop_sound in H as (-> & _ & _).
  unfold text_entries. apply fold_store_opt.
Qed.

(** More fuel does not change a result. *)
Lemma while_loop_mono fuel fuel' uint8 offset texts m :
  while_loop fuel uint8 offset texts = Some m -> (fuel <= fuel')%nat ->
  while_loop fuel' uint8 offset texts = Some m.
Proof.
  intros H Hle. destruct (while_loop_sound _ _ _ _ _ H) as (-> & Hexit & Hlen).
  apply while_loop_complete; [exact Hexit | lia].
Qed.

Lemma emitted_offsets n uint8 : forall offset,
  snd (emitted n uint8 offset) = offset + consumed (fst (emitted n uint8 offset))
  /\ back_to_back offset (fst (emitted n uint8 offset)).
Proof.
  induction n as [|n IH]; intros offset; simpl.
  - split; [lia | exact I].
  - destruct (next_offset uint8 offset) as [offset'|] eqn:Hn; simpl.
    + apply (next_offset_Some _ _ _ ∅) in Hn.
      apply loop_body_Some in Hn as (_ & _ & -> & _).
      destruct (IH (offset + 12 + readUint32 uint8 offset)) as [Ho Hb].
      split; [rewrite Ho; lia|]. split; [reflexivity | exact Hb].
    + split; [lia | exact I].
Qed.

Lemma store_lookup_eq (texts : gmap (list Z) (list Z)) k v :
  k <> proto_key -> store texts (k, v) !! k = Some v.
Proof.
  intros Hk. unfold store, set. simpl.
  destruct (decide (k = proto_key)); [contradiction|]. apply lookup_insert_eq.
Qed.

Lemma store_lookup_ne (texts : gmap (list Z) (list Z)) e k :
  fst e <> k -> store texts e !! k = texts !! k.
Proof.
  intros Hk. unfold store, set.
  destruct (decide (fst e = proto_key)); [reflexivity|].
  apply lookup_insert_ne. exact Hk.
Qed.

Lemma fold_store_other (es : list (list Z * list Z)) :
  forall (texts : gmap (list Z) (list Z)) k,
  k ∉ map fst es -> fold_left store es texts !! k = texts !! k.
Proof.
  induction es as [|e es IH]; intros texts k Hk; simpl; [reflexivity|].
  simpl in Hk. apply not_elem_of_cons in Hk as [Hne Hk].
  rewrite IH by exact Hk. apply store_lookup_ne. congruence.
Qed.

Lemma fold_store_last (es1 es2 : list (list Z * list Z))
  (texts : gmap (list Z) (list Z)) k v :
  k <> proto_key -> k ∉ map fst es2 ->
  fold_left store (es1 ++ (k, v) :: es2) texts !! k = Some v.
Proof.
  intros Hp Hk. rewrite fold_left_app. simpl.
  rewrite fold_store_other by exact Hk. apply store_lookup_eq. exact Hp.
Qed.

Lemma fold_store_proto (es : list (list Z * list Z)) :
  forall (texts : gmap (list Z) (list Z)),
  fold_left store es texts !! proto_key = texts !! proto_key.
Proof.
  induction es as [|e es IH]; intros texts; simpl; [reflexivity|].
  rewrite IH. unfold store, set.
  destruct (decide (fst e = proto_key)) as [|Hne]; [reflexivity|].
  apply lookup_insert_ne. exact Hne.
Qed.

(** Every key of the result comes from some entry. *)
Lemma fold_store_origin (es : list (list Z * list Z)) :
  forall (texts : gmap (list Z) (list Z)) k v,
  fold_left store es texts !! k = Some v ->
  texts !! k = Some v \/ (k, v) ∈ es.
Proof.
  induction es as [|e es IH]; intros texts k v; simpl; [tauto|].
  intros H. apply IH in H as [H|H]; [|right; apply elem_of_cons; tauto].
  unfold store, set in H. destruct (decide (fst e = proto_key)); [tauto|].
  destruct (decide (fst e = k)) as [<-|Hne].
  - rewrite lookup_insert_eq in H. injection H as <-.
    right. apply elem_of_cons. left. destruct e; reflexivity.
  - rewrite lookup_insert_ne in H by exact Hne. tauto.
Qed.

End WalkFacts.

(** ** UTF-8 *)

Section Utf8Facts.
Import JS Codec.

Lemma byte_val_of_Z z : 0 <= z < 256 -> byte_val (byte_of_Z z) = z.
Proof.
  intros Hz. unfold byte_of_Z, byte_val.
  rewrite Z.mod_small by lia.
  destruct (Byte.of_N (Z.to_N z)) as [b|] eqn:Hb.
  - apply Byte.to_of_N in Hb. rewrite Hb. lia.
  - apply Byte.of_N_None_iff in Hb. lia.
Qed.

Lemma byte_of_Z_val b : byte_of_Z (byte_val b) = b.
Proof.
  apply byte_val_inj. apply byte_val_of_Z. apply byte_val_bounds.
Qed.

Lemma land_low_bits v n : 0 <= n -> Z.land v (Z.ones n) = v mod 2 ^ n.
Proof. intros Hn. apply Z.land_ones. exact Hn. Qed.

Lemma lor_shiftl_6 a b : 0 <= b < 64 -> Z.lor (Z.shiftl a 6) b = a * 64 + b.
Proof.
  intros Hb. rewrite Z.shiftl_mul_pow2 by lia. change (2 ^ 6) with 64.
  symmetry. apply Z.add_nocarry_lor. apply Z.bits_inj'. intros n Hn.
  rewrite Z.land_spec, Z.bits_0.
  destruct (Z.lt_ge_cases n 6) as [Hlt|Hge].
  - change 64 with (2 ^ 6). rewrite Z.mul_pow2_bits_low by lia. reflexivity.
  - assert (Z.testbit b n = false) as ->; [|apply andb_false_r].
    destruct (Z.eq_dec b 0) as [->|Hnz]; [apply Z.bits_0|].
    apply Z.bits_above_log2; [lia|].
    assert (Z.log2 b < 6); [|lia].
    apply Z.log2_lt_pow2; [lia|]. change (2 ^ 6) with 64. lia.
Qed.

Lemma utf8_run_lead b rest :
  utf8_run utf8_init (b :: rest) =
    match utf8_lead (byte_val b) with
    | Emit cp => cp :: utf8_run utf8_init rest
    | Pending s' => utf8_run s' rest
    | Malformed => 0xFFFD :: utf8_run utf8_init rest
    end.
Proof. reflexivity. Qed.

Lemma utf8_run_continuation cp seen needed lo hi b rest :
  needed <> 0 -> lo <= byte_val b <= hi ->
  utf8_run (Utf8State cp seen needed lo hi) (b :: rest) =
    if seen + 1 =? needed then
      (cp * 64 + byte_val b mod 64) :: utf8_run utf8_init rest
    else
      utf8_run (Utf8State (cp * 64 + byte_val b mod 64) (seen + 1) needed
                  0x80 0xBF) rest.
Proof.
  intros Hneeded Hrange. cbn [utf8_run bytes_needed bytes_seen code_point
    lower_boundary upper_boundary].
  destruct (Z.eqb_spec needed 0) as [|_]; [contradiction|].
  destruct (Z.ltb_spec (byte_val b) lo) as [|_]; [lia|].
  destruct (Z.ltb_spec hi (byte_val b)) as [|_]; [lia|].
  cbn [orb].
  change 0x3F with (Z.ones 6). rewrite land_low_bits by lia.
  change (2 ^ 6) with 64.
  rewrite lor_shiftl_6 by (apply Z.mod_pos_bound; lia).
  reflexivity.
Qed.

Lemma utf8_lead_two v :
  0xC2 <= v <= 0xDF ->
  utf8_lead v = Pending (Utf8State (v mod 32) 0 1 0x80 0xBF).
Proof.
  intros Hv. unfold utf8_lead. decide_tests.
  change 0x1F with (Z.ones 5). rewrite land_low_bits by lia. reflexivity.
Qed.

Lemma utf8_lead_three v :
  0xE0 <= v <= 0xEF ->
  utf8_lead v = Pending (Utf8State (v mod 16) 0 2
                           (if v =? 0xE0 then 0xA0 else 0x80)
                           (if v =? 0xED then 0x9F else 0xBF)).
Proof.
  intros Hv. unfold utf8_lead.
  destruct (Z.leb_spec v 0x7F); [lia|].
  destruct (Z.leb_spec 0xC2 v); [|lia].
  destruct (Z.leb_spec v 0xDF); [lia|].
  destruct (Z.leb_spec 0xE0 v); [|lia].
  destruct (Z.leb_spec v 0xEF); [|lia].
  cbn [andb]. change 0xF with (Z.ones 4). rewrite land_low_bits by lia.
  reflexivity.
Qed.

Lemma utf8_lead_four v :
  0xF0 <= v <= 0xF4 ->
  utf8_lead v = Pending (Utf8State (v mod 8) 0 3
                           (if v =? 0xF0 then 0x90 else 0x80)
                           (if v =? 0xF4 then 0x8F else 0xBF)).
Proof.
  intros Hv. unfold utf8_lead.
  destruct (Z.leb_spec v 0x7F); [lia|].
  destruct (Z.leb_spec 0xC2 v); [|lia].
  destruct (Z.leb_spec v 0xDF); [lia|].
  destruct (Z.leb_spec 0xE0 v); [|lia].
  destruct (Z.leb_spec v 0xEF); [lia|].
  destruct (Z.leb_spec 0xF0 v); [|lia].
  destruct (Z.leb_spec v 0xF4); [|lia].
  cbn [andb]. change 0x7 with (Z.ones 3). rewrite land_low_bits by lia.
  reflexivity.
Qed.

(** Decoding undoes the encoding of one scalar value. *)
Lemma utf8_run_encode_cp c rest :
  is_scalar c ->
  utf8_run utf8_init (utf8_encode_cp c ++ rest) = c :: utf8_run utf8_init rest.
Proof.
  intros [Hc Hsur]. unfold utf8_encode_cp.
  destruct (Z.ltb_spec c 0x80) as [H1|H1];
    [|destruct (Z.ltb_spec c 0x800) as [H2|H2];
      [|destruct (Z.ltb_spec c 0x10000) as [H3|H3]]];
    cbn [app].
  - rewrite utf8_run_lead, byte_val_of_Z by dlia. unfold utf8_lead.
    destruct (Z.leb_spec c 0x7F); [reflexivity | lia].
  - rewrite utf8_run_lead, byte_val_of_Z by dlia.
    rewrite utf8_lead_two by dlia.
    rewrite utf8_run_continuation by (rewrite ?byte_val_of_Z; dlia).
    rewrite byte_val_of_Z by dlia. cbn [Z.eqb Z.add Pos.eqb]. f_equal. dlia.
  - rewrite utf8_run_lead, byte_val_of_Z by dlia.
    rewrite utf8_lead_three by dlia.
    rewrite utf8_run_continuation;
      [| dlia | rewrite byte_val_of_Z by dlia; decide_tests; dlia].
    cbn [Z.eqb Z.add Pos.eqb].
    rewrite utf8_run_continuation by (rewrite ?byte_val_of_Z; dlia).
    rewrite !byte_val_of_Z by dlia. cbn [Z.eqb Z.add Pos.eqb Pos.add Pos.succ].
    f_equal. dlia.
  - rewrite utf8_run_lead, byte_val_of_Z by dlia.
    rewrite utf8_lead_four by dlia.
    rewrite utf8_run_continuation;
      [| dlia | rewrite byte_val_of_Z by dlia; decide_tests; dlia].
    cbn [Z.eqb Z.add Pos.eqb].
    rewrite utf8_run_continuation by (rewrite ?byte_val_of_Z; dlia).
    cbn [Z.eqb Z.add Pos.eqb Pos.add Pos.succ].
    rewrite utf8_run_continuation by (rewrite ?byte_val_of_Z; dlia).
    rewrite !byte_val_of_Z by dlia. cbn [Z.eqb Z.add Pos.eqb Pos.add Pos.succ].
    f_equal. dlia.
Qed.

Lemma utf8_decode_encode t :
  is_utf8_string t -> utf8_decode (utf8_encode t) = t.
Proof.
  unfold utf8_decode, utf8_encode, is_utf8_string.
  induction 1 as [|c t Hc _ IH]; simpl; [reflexivity|].
  rewrite utf8_run_encode_cp by exact Hc. rewrite IH. reflexivity.
Qed.

Lemma utf8_decode_ascii k : is_ascii k -> utf8_decode (keyword_bytes k) = k.
Proof.
  unfold utf8_decode, keyword_bytes, is_ascii.
  induction 1 as [|c k Hc _ IH]; simpl map; [reflexivity|].
  rewrite utf8_run_lead, byte_val_of_Z by lia. unfold utf8_lead.
  destruct (Z.leb_spec c 0x7F); [|lia]. rewrite IH. reflexivity.
Qed.

Lemma keyword_bytes_no_zero k :
  is_ascii k -> 0 ∉ k -> x00 ∉ keyword_bytes k.
Proof.
  unfold keyword_bytes, is_ascii. intros Ha Hz Hin.
  apply list_elem_of_fmap in Hin as (c & Hc & Hin).
  rewrite Forall_forall in Ha. 
  assert (0 <= c < 0x80) as Hr by (apply Ha; exact Hin).
  assert (byte_val (byte_of_Z c) = c) as Hv by (apply byte_val_of_Z; lia).
  rewrite <- Hc in Hv. change (byte_val x00) with 0 in Hv. subst c.
  contradiction.
Qed.

End Utf8Facts.

(** * What the reader and the codec do *)

(** ** The walk: offsets, truncation, termination *)

Section WalkProperties.
Import JS HistoryLoader Examples.

(** A pass that changes nothing is repeated for ever. *)
Lemma while_loop_stuck (uint8 : list byte) offset texts :
  loop_body uint8 offset texts = Some (offset, texts) ->
  forall fuel, while_loop fuel uint8 offset texts = None.
Proof.
  intros Hb. induction fuel as [|fuel IH]; cbn [while_loop].
  - reflexivity.
  - rewrite Hb. exact IH.
Qed.

(** In terms of the length a pass reads, which is [readUint32] and not the
    declared length: the walk starts at offset 8, a pass that is not left
    moves the offset on by 12 + that length, and after any number of passes
    the offset is 8 plus the sum of 12 + length over the chunks passed. *)
Lemma walk_consumes_12_plus_length (n : nat) (uint8 : list byte) :
  snd (emitted n uint8 8) = 8 + consumed (fst (emitted n uint8 8))
  /\ back_to_back 8 (fst (emitted n uint8 8))
  /\ Forall (fun c => chunk_length c = readUint32 uint8 (chunk_offset c))
       (fst (emitted n uint8 8))
  /\ forall offset texts,
       match loop_body uint8 offset texts with
       | Some (offset', _) => offset' = offset + 12 + readUint32 uint8 offset
       | None => True
       end.
Proof.
  destruct (emitted_offsets n uint8 8) as [Hsum Hback].
  split; [exact Hsum|]. split; [exact Hback|]. split.
  - clear Hsum Hback. generalize 8.
    induction n as [|n IH]; intros offset; simpl.
    + constructor.
    + destruct (next_offset uint8 offset); simpl; [|constructor].
      constructor; [reflexivity | apply IH].
  - intros offset texts.
    destruct (loop_body uint8 offset texts) as [[offset' texts']|] eqn:Hb;
      [|exact I].
    apply loop_body_Some in Hb. tauto.
Qed.

(** When the walk reaches, after the chunks [chunks], an offset where the
    data end the pass computes (offset + 8 + the length it reads, which is
    [readUint32] and not the declared length) lies beyond the buffer, the
    pass leaves the loop at once without touching [texts], and
    [parsePngTexts] returns exactly the entries of [chunks]. *)
Lemma truncated_chunk_stops_walk (uint8 : list byte) (n fuel : nat)
  (chunks : list Chunk) (offset : Z) :
  emitted n uint8 8 = (chunks, offset) ->
  offset + 8 <= length uint8 ->
  length uint8 < offset + 8 + readUint32 uint8 offset ->
  (List.length chunks < fuel)%nat ->
  (forall texts, loop_body uint8 offset texts = None)
  /\ parsePngTexts fuel uint8 = Some (fold_left store (omap text_entry chunks) ∅).
Proof.
  intros Hem Hhdr Hend Hfuel.
  assert (forall texts, loop_body uint8 offset texts = None) as Hstop.
  { intros texts. apply loop_body_None. right. exact Hend. }
  split; [exact Hstop|].
  unfold parsePngTexts. rewrite <- fold_store_opt.
  replace chunks with (fst (emitted n uint8 8)) by (rewrite Hem; reflexivity).
  apply while_loop_complete.
  - rewrite Hem. simpl. unfold next_offset. rewrite Hstop. reflexivity.
  - rewrite Hem. exact Hfuel.
Qed.

Lemma truncated_png_returns_prompt :
  parsePngTexts 2 truncated_png = Some {[ str "prompt" := str "{}" ]}.
Proof.
  refine (proj2 (truncated_chunk_stops_walk truncated_png 1 2
            (fst (emitted 1 truncated_png 8)) 29 _ _ _ _)).
  - vm_compute. reflexivity.
  - vm_compute. discriminate.
  - vm_compute. reflexivity.
  - vm_compute. lia.
Defined.

(** With a declared length below 2^31 the pass does what the layout of a
    chunk asks for: it is left when the declared data end lies beyond the
    buffer, and otherwise moves the offset on by 12 + the declared length. *)
Lemma pass_below_2_31 (uint8 : list byte) (offset : Z)
  (texts : gmap (list Z) (list Z)) :
  offset + 8 <= length uint8 ->
  declared_length uint8 offset < 2 ^ 31 ->
  match loop_body uint8 offset texts with
  | None => length uint8 < offset + 8 + declared_length uint8 offset
  | Some (offset', _) =>
      offset + 8 + declared_length uint8 offset <= length uint8
      /\ offset' = offset + 12 + declared_length uint8 offset
  end.
Proof.
  intros Hhdr Hdecl.
  assert (readUint32 uint8 offset = declared_length uint8 offset) as Hread.
  { rewrite readUint32_cases.
    destruct (Z.ltb_spec (declared_length uint8 offset) (2 ^ 31)); lia. }
  destruct (loop_body uint8 offset texts) as [[offset' texts']|] eqn:Hb.
  - apply loop_body_Some in Hb as (_ & Hend & -> & _). lia.
  - apply loop_body_None in Hb. lia.
Qed.

(** With a declared length of 2^31 or more the pass is never left for a
    data end beyond the buffer, whatever the length of the buffer: the
    offset moves by 12 + the declared length - 2^32, which is less than 12
    and may be 0 or negative. *)
Lemma pass_from_2_31 (uint8 : list byte) (offset : Z)
  (texts : gmap (list Z) (list Z)) :
  offset + 8 <= length uint8 ->
  2 ^ 31 <= declared_length uint8 offset ->
  exists texts',
    loop_body uint8 offset texts
    = Some (offset + 12 + declared_length uint8 offset - 2 ^ 32, texts').
Proof.
  intros Hhdr Hdecl.
  assert (readUint32 uint8 offset = declared_length uint8 offset - 2 ^ 32)
    as Hread.
  { rewrite readUint32_cases.
    destruct (Z.ltb_spec (declared_length uint8 offset) (2 ^ 31)); lia. }
  pose proof (declared_length_bounds uint8 offset) as Hb32.
  destruct (loop_body uint8 offset texts) as [[offset' texts']|] eqn:Hb.
  - apply loop_body_Some in Hb as (_ & _ & -> & _). exists texts'.
    rewrite Hread. f_equal. f_equal. lia.
  - apply loop_body_None in Hb. lia.
Qed.

(** C8. The offset does not always advance by 12 + the declared length.  On
    a buffer whose first chunk carries the length field FF FF FF F8, which
    declares 4294967288 bytes, the pass over that chunk is made and moves
    the offset from 8 to 12: four bytes are consumed, not 12 + 4294967288,
    and the walk ends at offset 12, inside the header of the chunk. *)
Theorem walk_advances_4_on_length_FFFFFFF8 :
  declared_length short_step_png 8 = 4294967288
  /\ loop_body short_step_png 8 ∅ = Some (12, ∅)
  /\ emitted 2 short_step_png 8 = ([chunk_view short_step_png 8], 12)
  /\ snd (emitted 2 short_step_png 8)
     <> 8 + (12 + declared_length short_step_png 8)
  /\ parsePngTexts 2 short_step_png = Some ∅.
Proof.
  split; [vm_compute; reflexivity|].
  split; [vm_compute; reflexivity|].
  split; [vm_compute; reflexivity|].
  split; [vm_compute; discriminate|].
  vm_compute. reflexivity.
Qed.

(** C5. A chunk whose declared data end lies beyond the buffer does not
    always stop the walk.  In [oversized_png] the walk reaches offset 29
    after one text chunk; the chunk there declares 4294967284 bytes of
    data, of which the buffer holds 3.  The pass is not left: it ends at
    the offset it started from with [texts] as it was, and [parsePngTexts]
    never returns the entry of the chunk before. *)
Theorem truncated_chunk_hangs_walk :
  emitted 1 oversized_png 8 = ([chunk_view oversized_png 8], 29)
  /\ text_entries 1 oversized_png = [(str "prompt", str "{}")]
  /\ 29 + 8 <= length oversized_png
  /\ declared_length oversized_png 29 = 4294967284
  /\ length oversized_png < 29 + 8 + declared_length oversized_png 29
  /\ loop_body oversized_png 29 {[ str "prompt" := str "{}" ]}
     = Some (29, {[ str "prompt" := str "{}" ]})
  /\ forall fuel, parsePngTexts fuel oversized_png = None.
Proof.
  assert (loop_body oversized_png 8 ∅
          = Some (29, {[ str "prompt" := str "{}" ]})) as Hfirst
    by (vm_compute; reflexivity).
  assert (loop_body oversized_png 29 {[ str "prompt" := str "{}" ]}
          = Some (29, {[ str "prompt" := str "{}" ]})) as Hb
    by (vm_compute; reflexivity).
  split; [vm_compute; reflexivity|].
  split; [vm_compute; reflexivity|].
  split; [vm_compute; discriminate|].
  split; [vm_compute; reflexivity|].
  split; [vm_compute; reflexivity|].
  split; [exact Hb|].
  intros [|fuel]; [reflexivity|].
  unfold parsePngTexts. cbn [while_loop]. rewrite Hfirst.
  apply while_loop_stuck. exact Hb.
Qed.

(** C2. On a buffer whose first chunk carries the length field FF FF FF F4,
    which declares 4294967284 bytes, [readUint32] returns -12: the data end
    computed is 4, the [break] is not taken, the pass ends at the offset it
    started from, and the loop never returns. *)
Theorem walk_loops_on_length_FFFFFFF4 :
  declared_length looping_png 8 = 4294967284
  /\ readUint32 looping_png 8 = -12
  /\ loop_body looping_png 8 ∅ = Some (8, ∅)
  /\ forall fuel, parsePngTexts fuel looping_png = None.
Proof.
  assert (loop_body looping_png 8 ∅ = Some (8, ∅)) as Hb
    by (vm_compute; reflexivity).
  split; [vm_compute; reflexivity|].
  split; [vm_compute; reflexivity|]. split; [exact Hb|].
  intros fuel. apply while_loop_stuck. exact Hb.
Qed.

(** C9. On sixteen bytes of garbage [parsePngTexts] returns no map: the loop
    runs for ever. *)
Theorem parsePngTexts_hangs_on_garbage :
  forall fuel, parsePngTexts fuel garbage = None.
Proof.
  intros fuel. apply while_loop_stuck. vm_compute. reflexivity.
Qed.

(** The loop does return when no length it can read is negative: the offset
    then grows by at least 12 with each pass. *)
Lemma while_loop_returns (uint8 : list byte) :
  (forall o, o + 8 <= length uint8 -> 0 <= readUint32 uint8 o) ->
  forall fuel offset texts,
    Z.max 0 (length uint8 - offset) < Z.of_nat fuel ->
    exists m, while_loop fuel uint8 offset texts = Some m.
Proof.
  intros Hpos. induction fuel as [|fuel IH]; intros offset texts Hfuel.
  - lia.
  - simpl.
    destruct (loop_body uint8 offset texts) as [[offset' texts']|] eqn:Hb.
    + apply loop_body_Some in Hb as (Hhdr & _ & -> & _).
      apply IH. specialize (Hpos offset Hhdr). lia.
    + eauto.
Qed.

Lemma parsePngTexts_returns (uint8 : list byte) :
  (forall o, o + 8 <= length uint8 -> 0 <= readUint32 uint8 o) ->
  exists m, parsePngTexts (S (List.length uint8)) uint8 = Some m.
Proof.
  intros Hpos. apply while_loop_returns; [exact Hpos|].
  unfold length. lia.
Qed.

(** In particular it returns when every length field declares less than
    2^31 bytes, the largest length a PNG chunk may have. *)
Lemma parsePngTexts_returns_below_2_31 (uint8 : list byte) :
  (forall o, declared_length uint8 o < 2 ^ 31) ->
  exists m, parsePngTexts (S (List.length uint8)) uint8 = Some m.
Proof.
  intros Hdecl. apply parsePngTexts_returns. intros o _.
  rewrite readUint32_cases. specialize (Hdecl o).
  pose proof (declared_length_bounds uint8 o).
  destruct (Z.ltb_spec (declared_length uint8 o) (2 ^ 31)); lia.
Qed.

(** A buffer too short to hold a chunk header after the signature gives the
    empty map at once. *)
Lemma parsePngTexts_short_buffer (uint8 : list byte) (fuel : nat) :
  length uint8 < 16 -> parsePngTexts (S fuel) uint8 = Some ∅.
Proof.
  intros Hshort. unfold parsePngTexts. cbn [while_loop].
  assert (loop_body uint8 8 ∅ = None) as ->; [|reflexivity].
  apply loop_body_None. left. lia.
Qed.

End WalkProperties.

(** ** Text chunks and the map *)

Section TextProperties.
Import JS HistoryLoader Examples.

(** A test for the absence of the zero byte. *)
Lemma no_zero_byte (l : list byte) :
  forallb (fun b => negb (byte_val b =? 0)) l = true -> x00 ∉ l.
Proof.
  induction l as [|b l IH]; simpl.
  - intros _. apply not_elem_of_nil.
  - intros H. apply andb_true_iff in H as [Hb Hl].
    apply not_elem_of_cons. split; [|exact (IH Hl)].
    intros <-. discriminate Hb.
Qed.



(** A text chunk without separator leaves the map empty. *)
Example no_separator_is_skipped :
  loop_body no_separator_png 8 ∅ = Some (28, ∅)
  /\ parsePngTexts 3 no_separator_png = Some ∅.
Proof. split; vm_compute; reflexivity. Qed.

(** C10. A [tEXt] chunk whose data starts with the zero byte is accepted:
    the separator is found at index 0, which passes the test, and the text
    is assigned under the empty keyword, so that the map has the key [""]. *)
Theorem empty_keyword_is_stored (uint8 : list byte) (offset offset' : Z)
  (texts texts' : gmap (list Z) (list Z)) (post : list byte) :
  loop_body uint8 offset texts = Some (offset', texts') ->
  chunk_type (chunk_view uint8 offset) = str "tEXt" ->
  chunk_data (chunk_view uint8 offset) = x00 :: post ->
  indexOf (chunk_data (chunk_view uint8 offset)) 0 = 0
  /\ texts' = set texts [] (TextDecoder_decode post)
  /\ texts' !! [] = Some (TextDecoder_decode post).
Proof.
  intros Hb Htype Hdata. apply loop_body_Some in Hb as (_ & _ & _ & ->).
  unfold text_entry. destruct (decide _) as [_|Hne]; [|contradiction].
  rewrite Hdata. split; [reflexivity|]. simpl. split; [reflexivity|].
  apply store_lookup_eq. discriminate.
Qed.

Lemma empty_keyword_is_stored_witness :
  exists m, parsePngTexts 3 empty_keyword_png = Some m
            /\ m !! [] = Some (str "orphan").
Proof.
  assert (loop_body empty_keyword_png 8 ∅
          = Some (27, {[ [] := str "orphan" ]})) as Hb
    by (vm_compute; reflexivity).
  exists {[ [] := str "orphan" ]}. split; [vm_compute; reflexivity|].
  refine (proj2 (proj2 (empty_keyword_is_stored empty_keyword_png 8 27 ∅ _
                          (ascii_bytes "orphan") Hb _ _))).
  - vm_compute. reflexivity.
  - vm_compute. reflexivity.
Defined.

(** For every keyword other than [__proto__]: when the loop returns, the map
    binds the keyword to the text of the last text chunk that carries it;
    every binding of the map is the pair of some text chunk; and the keys of
    the map are pairwise different. *)
Lemma last_write_wins_except_proto (fuel : nat) (uint8 : list byte)
  (k : list Z) :
  k <> proto_key ->
  last_write_wins fuel uint8 k
  /\ forall m : gmap (list Z) (list Z),
       parsePngTexts fuel uint8 = Some m ->
       (forall t, m !! k = Some t -> (k, t) ∈ text_entries fuel uint8)
       /\ NoDup (map fst (map_to_list m)).
Proof.
  intros Hk. split.
  - intros m t es1 es2 Hm Hes Hlast.
    rewrite (parsePngTexts_entries _ _ _ Hm), Hes.
    apply fold_store_last; assumption.
  - intros m Hm. split.
    + intros t Ht. rewrite (parsePngTexts_entries _ _ _ Hm) in Ht.
      apply fold_store_origin in Ht as [Ht|Ht]; [|exact Ht].
      rewrite lookup_empty in Ht. discriminate.
    + apply NoDup_fst_map_to_list.
Qed.

Example workflow_twice_keeps_second :
  exists m, parsePngTexts 4 workflow_twice_png = Some m
            /\ m !! str "workflow" = Some (str "second").
Proof.
  exists {[ str "workflow" := str "second" ]}.
  assert (parsePngTexts 4 workflow_twice_png
          = Some {[ str "workflow" := str "second" ]}) as Hm
    by (vm_compute; reflexivity).
  split; [exact Hm|].
  refine (proj1 (last_write_wins_except_proto 4 workflow_twice_png
                   (str "workflow") _) _ _
            [(str "workflow", str "first")] [] Hm _ _).
  - vm_compute. discriminate.
  - vm_compute. reflexivity.
  - apply not_elem_of_nil.
Qed.

(** The assignment [texts[keyword] = text] does nothing when the keyword is
    [__proto__], whatever the object holds. *)
Lemma set_proto_is_ignored (texts : gmap (list Z) (list Z)) (v : list Z) :
  set texts (str "__proto__") v = texts.
Proof. reflexivity. Qed.

(** C7. Last write wins fails for the keyword [__proto__]: on a picture with
    two text chunks that carry it, both assignments are made, the loop
    returns, and the map is empty; it does not bind the keyword to the text
    of the later chunk. *)
Theorem proto_keyword_is_lost :
  text_entries 4 proto_png
  = [(str "__proto__", str "first"); (str "__proto__", str "second")]
  /\ parsePngTexts 4 proto_png = Some ∅
  /\ ~ last_write_wins 4 proto_png (str "__proto__").
Proof.
  assert (text_entries 4 proto_png
          = [(str "__proto__", str "first"); (str "__proto__", str "second")])
    as Hes by (vm_compute; reflexivity).
  assert (parsePngTexts 4 proto_png = Some ∅) as Hm
    by (vm_compute; reflexivity).
  split; [exact Hes|]. split; [exact Hm|].
  intros H.
  specialize (H ∅ (str "second") [(str "__proto__", str "first")] [] Hm Hes).
  discriminate H. apply not_elem_of_nil.
Qed.

(** C1. [parsePngTexts] goes past a [zTXt] chunk without decoding it: on a
    picture whose only text chunk is the compressed [workflow], the walk
    sees the chunk and the map comes back empty. *)
Theorem parsePngTexts_ignores_zTXt :
  map chunk_type (fst (emitted 3 zTXt_png 8)) = [str "zTXt"; str "IEND"]
  /\ text_entries 3 zTXt_png = []
  /\ parsePngTexts 3 zTXt_png = Some ∅.
Proof.
  split; [vm_compute; reflexivity|]. split; vm_compute; reflexivity.
Qed.

(** No pass ever assigns anything for a chunk whose type is not [tEXt]. *)
Lemma text_entry_only_tEXt (c : Chunk) :
  chunk_type c <> str "tEXt" -> text_entry c = None.
Proof.
  intros Hne. unfold text_entry.
  destruct (decide _); [contradiction | reflexivity].
Qed.

Lemma zTXt_pass_keeps_texts (uint8 : list byte) (offset offset' : Z)
  (texts texts' : gmap (list Z) (list Z)) :
  loop_body uint8 offset texts = Some (offset', texts') ->
  chunk_type (chunk_view uint8 offset) = str "zTXt" ->
  texts' = texts.
Proof.
  intros Hb Htype. apply loop_body_Some in Hb as (_ & _ & _ & ->).
  rewrite text_entry_only_tEXt; [reflexivity|].
  rewrite Htype. discriminate.
Qed.

(** [readPngWorkflow] rejects exactly when the key is absent; a key that is
    present resolves with its text, the empty one included. *)
Lemma readPngWorkflow_presence (fuel : nat) (arr : list byte)
  (texts : gmap (list Z) (list Z)) (which : list Z) :
  parsePngTexts fuel arr = Some texts ->
  let key := if decide (which = str "prompt") then str "prompt"
             else str "workflow" in
  match texts !! key with
  | Some v => readPngWorkflow fuel arr which = Some (Resolve (Str v))
  | None =>
      readPngWorkflow fuel arr which
      = Some (Reject (str "No '" ++ key ++ str "' metadata found in PNG."))
  end.
Proof.
  intros Hm. unfold readPngWorkflow, has, get_prop. rewrite Hm.
  destruct (decide (which = str "prompt")); simpl;
    match goal with |- context [texts !! ?k] => destruct (texts !! k) end;
    reflexivity.
Qed.

(** The remote path throws "not found" when the key is absent and also when
    it is bound to the empty string. *)
Lemma remote_lookup_throws (fuel : nat) (arr : list byte)
  (texts : gmap (list Z) (list Z)) :
  parsePngTexts fuel arr = Some texts ->
  match texts !! str "workflow" with
  | Some (c :: v) =>
      loadWorkflowFromRemotePng_raw fuel arr = Some (Raw (Str (c :: v)))
  | Some [] | None =>
      loadWorkflowFromRemotePng_raw fuel arr
      = Some (Thrown (str "No 'workflow' metadata found in PNG."))
  end.
Proof.
  intros Hm. unfold loadWorkflowFromRemotePng_raw, get_prop. rewrite Hm.
  destruct (texts !! str "workflow") as [[|c v]|]; reflexivity.
Qed.

(** C3. With [workflow] bound to the empty string, the remote-PNG path
    throws the very error it throws when the keyword is absent, while
    [readPngWorkflow] resolves with the empty string. *)
Theorem remote_path_confuses_empty_with_absent :
  parsePngTexts 3 empty_workflow_png = Some {[ str "workflow" := [] ]}
  /\ parsePngTexts 3 plain_png = Some ∅
  /\ loadWorkflowFromRemotePng_raw 3 empty_workflow_png
     = Some (Thrown (str "No 'workflow' metadata found in PNG."))
  /\ loadWorkflowFromRemotePng_raw 3 plain_png
     = Some (Thrown (str "No 'workflow' metadata found in PNG."))
  /\ readPngWorkflow 3 empty_workflow_png (str "workflow")
     = Some (Resolve (Str []))
  /\ readPngWorkflow 3 plain_png (str "workflow")
     = Some (Reject (str "No 'workflow' metadata found in PNG.")).
Proof.
  repeat split; vm_compute; reflexivity.
Qed.

End TextProperties.

(** ** The copy that goes through the PNG module *)

Section ModuleLoaderFacts.
Import JS ModuleLoader.
Variable decodeTextChunk : list byte -> completion txt.
Variable decodeZtextChunk : list byte -> completion txt.

(** There a [zTXt] chunk that decodes is stored like a [tEXt] chunk. *)
Lemma collect_stores_zTXt (c : chunk) rest texts (t : txt) :
  name c = str "zTXt" ->
  decodeZtextChunk (data c) = Normal t ->
  collect decodeTextChunk decodeZtextChunk (c :: rest) texts
  = collect decodeTextChunk decodeZtextChunk rest
      (set texts (keyword t) (text t)).
Proof.
  intros Hname Hdec. cbn [collect]. rewrite Hname.
  destruct (decide (str "zTXt" = str "tEXt")) as [Heq|_]; [discriminate Heq|].
  destruct (decide (str "zTXt" = str "zTXt")) as [_|Hne]; [|contradiction].
  rewrite Hdec. reflexivity.
Qed.

(** And one that fails to decode is skipped. *)
Lemma collect_skips_failed_zTXt (c : chunk) rest texts err :
  name c = str "zTXt" ->
  decodeZtextChunk (data c) = Throw err ->
  collect decodeTextChunk decodeZtextChunk (c :: rest) texts
  = collect decodeTextChunk decodeZtextChunk rest texts.
Proof.
  intros Hname Hdec. cbn [collect]. rewrite Hname.
  destruct (decide (str "zTXt" = str "tEXt")) as [Heq|_]; [discriminate Heq|].
  destruct (decide (str "zTXt" = str "zTXt")) as [_|Hne]; [|contradiction].
  rewrite Hdec. reflexivity.
Qed.

End ModuleLoaderFacts.

(** ** The codec of the design document: encode, then decode *)

Section CodecProperties.
Import JS Codec.

(** The round trip needs no condition on the text. *)
Lemma round_trip_any_text (k t : list Z) :
  is_ascii k -> (0 ∉ k) -> is_utf8_string t -> round_trips k t.
Proof.
  intros Hk Hz Ht. unfold round_trips, decodeTextChunk, encodeTextChunk.
  cbn [data].
  rewrite split_at_zero_first by (apply keyword_bytes_no_zero; assumption).
  rewrite utf8_decode_ascii by exact Hk.
  rewrite utf8_decode_encode by exact Ht. reflexivity.
Qed.

(** C4, as stated, fails for an ASCII keyword that holds the character NUL:
    the decoder cuts the keyword short. *)
Lemma round_trip_fails_for_NUL_in_keyword :
  is_ascii [97; 0; 98] /\ is_utf8_string (str "x")
  /\ (x00 ∉ utf8_encode (str "x"))
  /\ decodeTextChunk (data (encodeTextChunk [97; 0; 98] (str "x")))
     = Some ([97], [98; 0; 120])
  /\ ~ round_trips [97; 0; 98] (str "x").
Proof.
  split; [repeat (apply List.Forall_cons; [lia|]); apply List.Forall_nil|].
  split; [change (str "x") with [120];
          repeat (apply List.Forall_cons; [unfold is_scalar; lia|]);
          apply List.Forall_nil|].
  split; [apply no_zero_byte; vm_compute; reflexivity|].
  split; [vm_compute; reflexivity|].
  unfold round_trips. vm_compute. discriminate.
Qed.

(** C4, amended. For every ASCII keyword without the character NUL and every
    text of Unicode scalar values whose UTF-8 form holds no zero byte:
    decoding the data of the encoded chunk gives back keyword and text, and
    the chunk is, byte for byte, the big-endian length of keyword, separator
    and UTF-8 text, the type [tEXt], the keyword, a zero byte, the text, and
    the CRC-32 of type and data. *)
Theorem encode_decode_round_trip (k t : list Z) :
  is_ascii k -> (0 ∉ k) ->
  is_utf8_string t -> (x00 ∉ utf8_encode t) ->
  round_trips k t
  /\ chunk_bytes (encodeTextChunk k t)
     = be32 (JS.length k + 1 + JS.length (utf8_encode t))
       ++ [x74; x45; x58; x74]
       ++ keyword_bytes k ++ [x00] ++ utf8_encode t
       ++ be32 (crc32 ([x74; x45; x58; x74]
                       ++ keyword_bytes k ++ [x00] ++ utf8_encode t)).
Proof.
  intros Hk Hz Ht _. split; [apply round_trip_any_text; assumption|].
  unfold chunk_bytes, encodeTextChunk. cbn [length type data crc].
  rewrite length_app. unfold keyword_bytes at 1.
  unfold JS.length at 1 2 3. rewrite length_map. simpl List.length.
  rewrite <- !app_assoc. simpl app.
  replace (Z.of_nat (List.length k) + Z.of_nat (S (List.length (utf8_encode t))))
    with (Z.of_nat (List.length k) + 1 + Z.of_nat (List.length (utf8_encode t)))
    by lia.
  reflexivity.
Qed.

Lemma encode_decode_round_trip_witness :
  decodeTextChunk
    (data (encodeTextChunk (str "workflow") [123; 8364; 128512; 125]))
  = Some (str "workflow", [123; 8364; 128512; 125]).
Proof.
  refine (proj1 (encode_decode_round_trip (str "workflow")
                   [123; 8364; 128512; 125] _ _ _ _)).
  - change (str "workflow") with [119; 111; 114; 107; 102; 108; 111; 119].
    repeat (apply List.Forall_cons; [lia|]); apply List.Forall_nil.
  - change (str "workflow") with [119; 111; 114; 107; 102; 108; 111; 119].
    intros H.
    repeat (apply elem_of_cons in H as [H|H]; [discriminate H|]).
    inversion H.
  - repeat (apply List.Forall_cons; [unfold is_scalar; lia|]).
    apply List.Forall_nil.
  - apply no_zero_byte. vm_compute. reflexivity.
Defined.

(** The four bytes of [be32] are the big-endian digits of a 32-bit value. *)
Lemma be32_value (n : Z) :
  0 <= n < 2 ^ 32 ->
  fold_left (fun acc b => acc * 256 + byte_val b) (be32 n) 0 = n.
Proof.
  intros Hn. unfold be32. cbn [fold_left].
  assert (forall z, byte_val (byte_of_Z z) = z mod 256) as Hbyte.
  { intros z.
    replace (byte_of_Z z) with (byte_of_Z (z mod 256))
      by (unfold byte_of_Z; rewrite Z.mod_mod by lia; reflexivity).
    apply byte_val_of_Z. apply Z.mod_pos_bound. lia. }
  rewrite !Hbyte. dlia.
Qed.

(** What the encoder embeds, the reader of the script loads. *)
Example embed_then_load :
  HistoryLoader.parsePngTexts 3
    (Examples.signature
     ++ chunk_bytes (encodeTextChunk (str "workflow") (str "{}"))
     ++ Examples.IEND)
  = Some {[ str "workflow" := str "{}" ]}.
Proof. vm_compute. reflexivity. Qed.

End CodecProperties.

(** * Beyond the reader: whole files, the loads, the dialogs *)

(** ** Files made of whole chunks *)

Section StreamFacts.
Import JS HistoryLoader.

Lemma get_app_middle (pre l post : list byte) (i : Z) :
  0 <= i < length l ->
  get (pre ++ l ++ post) (length pre + i) = l !! Z.to_nat i.
Proof.
  intros Hi. unfold get, length in *.
  destruct (Z.leb_spec 0 (Z.of_nat (List.length pre) + i)); [|lia].
  replace (Z.to_nat (Z.of_nat (List.length pre) + i))
    with (List.length pre + Z.to_nat i)%nat by lia.
  rewrite lookup_app_r by lia.
  replace (List.length pre + Z.to_nat i - List.length pre)%nat
    with (Z.to_nat i) by lia.
  apply lookup_app_l. lia.
Qed.

Lemma slice_middle {A} (pre l post : list A) :
  slice (pre ++ l ++ post) (length pre) (length pre + length l) = l.
Proof.
  unfold slice, clamp_index. rewrite !length_app.
  pose proof (length_nonneg pre). pose proof (length_nonneg l).
  pose proof (length_nonneg post).
  destruct (Z.ltb_spec (length pre) 0); [lia|].
  destruct (Z.ltb_spec (length pre + length l) 0); [lia|].
  rewrite !Z.min_l by lia.
  replace (length pre + length l - length pre) with (length l) by lia.
  rewrite Z.max_l by lia. unfold length. rewrite !Nat2Z.id.
  rewrite drop_app_length. apply take_app_length.
Qed.

Lemma byte_val_of_Z_mod z : byte_val (byte_of_Z z) = z mod 256.
Proof.
  replace (byte_of_Z z) with (byte_of_Z (z mod 256))
    by (unfold byte_of_Z; rewrite Z.mod_mod by lia; reflexivity).
  apply byte_val_of_Z. apply Z.mod_pos_bound. lia.
Qed.

(** In front of a chunk, [readUint32] reads the length of its data. *)
Lemma declared_length_be32 (pre post : list byte) (n : Z) :
  0 <= n < 2 ^ 32 ->
  declared_length (pre ++ Codec.be32 n ++ post) (length pre) = n.
Proof.
  intros Hn. unfold declared_length.
  assert (forall i, 0 <= i < 4 ->
            get (pre ++ Codec.be32 n ++ post) (length pre + i)
            = Codec.be32 n !! Z.to_nat i) as Hg.
  { intros i Hi. apply get_app_middle. unfold length. simpl. lia. }
  replace (get (pre ++ Codec.be32 n ++ post) (length pre))
    with (get (pre ++ Codec.be32 n ++ post) (length pre + 0))
    by (f_equal; lia).
  rewrite !Hg by lia. unfold Codec.be32. simpl lookup. cbn [num].
  rewrite !byte_val_of_Z_mod. dlia.
Qed.

Lemma readUint32_be32 (pre post : list byte) (n : Z) :
  0 <= n < 2 ^ 31 ->
  readUint32 (pre ++ Codec.be32 n ++ post) (length pre) = n.
Proof.
  intros Hn. rewrite readUint32_cases, declared_length_be32 by lia.
  destruct (Z.ltb_spec n (2 ^ 31)); lia.
Qed.

Lemma length_be32 n : length (Codec.be32 n) = 4.
Proof. reflexivity. Qed.

(** A pass that starts in front of a chunk whose data is all there takes the
    chunk's entry and ends behind its CRC field, whatever follows the data. *)
Lemma pass_over_chunk (pre post : list byte) (c : Stream.chunk)
  (texts : gmap (list Z) (list Z)) :
  List.length (Stream.type c) = 4%nat ->
  length (Stream.data c) < 2 ^ 31 ->
  loop_body
    (pre ++ Codec.be32 (length (Stream.data c)) ++ Stream.type c
         ++ Stream.data c ++ post)
    (length pre) texts
  = Some (length pre + 12 + length (Stream.data c),
          store_opt texts (Stream.entry_of c)).
Proof.
  intros Htype Hlen.
  destruct c as [ty d cr]. cbn [Stream.type Stream.data] in *.
  destruct ty as [|t0 [|t1 [|t2 [|t3 [|]]]]]; try discriminate Htype.
  set (n := length d) in *. pose proof (length_nonneg d) as Hn0. fold n in Hn0.
  set (buf := pre ++ Codec.be32 n ++ [t0; t1; t2; t3] ++ d ++ post).
  assert (readUint32 buf (length pre) = n) as Hread
    by (apply readUint32_be32; lia).
  assert (length buf = length pre + 8 + n + length post) as Hbuf.
  { unfold buf. rewrite !length_app, length_be32. unfold length at 2.
    simpl List.length. fold n. lia. }
  pose proof (length_nonneg post) as Hpost.
  destruct (loop_body buf (length pre) texts) as [[o' t']|] eqn:Hb.
  - apply loop_body_Some in Hb as (_ & _ & -> & ->). rewrite Hread.
    f_equal. f_equal. f_equal.
    unfold text_entry, Stream.entry_of, chunk_view.
    cbn [chunk_type chunk_data Stream.type Stream.data]. rewrite Hread.
    assert (fromCharCode
              [get buf (length pre + 4); get buf (length pre + 5);
               get buf (length pre + 6); get buf (length pre + 7)]
            = map byte_val [t0; t1; t2; t3]) as ->.
    { assert (forall i, 0 <= i < 4 ->
                get buf (length pre + 4 + i) = [t0; t1; t2; t3] !! Z.to_nat i)
        as Hg.
      { intros i Hi. unfold buf. rewrite (app_assoc pre).
        replace (length pre + 4) with (length (pre ++ Codec.be32 n))
          by (rewrite length_app, length_be32; reflexivity).
        apply get_app_middle. unfold length. simpl. lia. }
      replace (length pre + 5) with (length pre + 4 + 1) by lia.
      replace (length pre + 6) with (length pre + 4 + 2) by lia.
      replace (length pre + 7) with (length pre + 4 + 3) by lia.
      replace (get buf (length pre + 4))
        with (get buf (length pre + 4 + 0)) by (f_equal; lia).
      rewrite !Hg by lia. reflexivity. }
    assert (slice buf (length pre + 8) (length pre + 8 + n) = d) as ->.
    { unfold buf.
      replace (pre ++ Codec.be32 n ++ [t0; t1; t2; t3] ++ d ++ post)
        with ((pre ++ Codec.be32 n ++ [t0; t1; t2; t3]) ++ d ++ post)
        by (rewrite <- !app_assoc; reflexivity).
      replace (length pre + 8)
        with (length (pre ++ Codec.be32 n ++ [t0; t1; t2; t3]))
        by (rewrite !length_app, length_be32; reflexivity).
      apply slice_middle. }
    reflexivity.
  - apply loop_body_None in Hb. rewrite Hread in Hb. lia.
Qed.

Lemma length_chunk_bytes (c : Stream.chunk) :
  Stream.well_formed c ->
  length (Stream.chunk_bytes c) = 12 + length (Stream.data c).
Proof.
  intros (Ht & Hc & _). unfold Stream.chunk_bytes.
  rewrite !length_app, length_be32. unfold length. rewrite Ht, Hc. lia.
Qed.

Lemma stream_cons (c : Stream.chunk) cs :
  Stream.stream (c :: cs) = Stream.chunk_bytes c ++ Stream.stream cs.
Proof. reflexivity. Qed.

(** The loop goes through a sequence of whole chunks one pass each, whatever
    follows them. *)
Lemma while_loop_chunks (cs : list Stream.chunk) :
  forall (pre rest : list byte) (texts : gmap (list Z) (list Z)) (fuel : nat),
    Forall Stream.well_formed cs ->
    while_loop (List.length cs + fuel) (pre ++ Stream.stream cs ++ rest)
      (length pre) texts
    = while_loop fuel (pre ++ Stream.stream cs ++ rest)
        (length (pre ++ Stream.stream cs))
        (fold_left store (Stream.entries cs) texts).
Proof.
  induction cs as [|c cs IH]; intros pre rest texts fuel Hwf.
  - simpl. rewrite app_nil_r. reflexivity.
  - cbn [List.length Nat.add while_loop].
    apply Forall_cons in Hwf as [Hc Hcs].
    pose proof Hc as (Hty & Hcrc & Hlen).
    assert (pre ++ Stream.stream (c :: cs) ++ rest
            = pre ++ Codec.be32 (length (Stream.data c)) ++ Stream.type c
                  ++ Stream.data c
                  ++ (Stream.crc c ++ Stream.stream cs ++ rest)) as Hshape.
    { rewrite stream_cons. unfold Stream.chunk_bytes.
      rewrite <- !app_assoc. reflexivity. }
    rewrite Hshape at 1. rewrite pass_over_chunk by assumption.
    assert (pre ++ Stream.stream (c :: cs) ++ rest
            = (pre ++ Stream.chunk_bytes c) ++ Stream.stream cs ++ rest)
      as Hnext.
    { rewrite stream_cons, <- !app_assoc. reflexivity. }
    rewrite Hnext.
    replace (length pre + 12 + length (Stream.data c))
      with (length (pre ++ Stream.chunk_bytes c))
      by (rewrite length_app, length_chunk_bytes by exact Hc; lia).
    rewrite IH by assumption.
    rewrite stream_cons, <- !app_assoc.
    unfold Stream.entries. simpl omap.
    destruct (Stream.entry_of c); reflexivity.
Qed.

(** Fewer than eight bytes left: the loop test fails. *)
Lemma exit_on_short_rest (pre rest : list byte)
  (texts : gmap (list Z) (list Z)) :
  length rest < 8 -> loop_body (pre ++ rest) (length pre) texts = None.
Proof.
  intros Hrest. apply loop_body_None. left. rewrite length_app. lia.
Qed.

(** A header whose data is cut short: the [break] is taken. *)
Lemma exit_on_cut_data (pre rest : list byte) (n : Z)
  (texts : gmap (list Z) (list Z)) :
  0 <= n < 2 ^ 31 -> length rest < 4 + n ->
  loop_body (pre ++ Codec.be32 n ++ rest) (length pre) texts = None.
Proof.
  intros Hn Hrest. apply loop_body_None. right.
  rewrite readUint32_be32 by lia. rewrite !length_app, length_be32. lia.
Qed.

End StreamFacts.

Section StreamProperties.
Import JS HistoryLoader.

(** The loop over whole chunks followed by fewer than eight bytes. *)
Lemma while_loop_whole_chunks (sig tail : list byte)
  (cs : list Stream.chunk) (fuel : nat) :
  List.length sig = 8%nat ->
  Forall Stream.well_formed cs ->
  length tail < 8 ->
  (List.length cs < fuel)%nat ->
  while_loop fuel (sig ++ Stream.stream cs ++ tail) 8 ∅
  = Some (fold_left store (Stream.entries cs) ∅).
Proof.
  intros Hsig Hwf Htail Hfuel.
  replace 8 with (length sig) by (unfold length; rewrite Hsig; reflexivity).
  replace fuel with (List.length cs + S (fuel - S (List.length cs)))%nat by lia.
  rewrite while_loop_chunks by exact Hwf. cbn [while_loop].
  rewrite app_assoc, exit_on_short_rest by exact Htail. reflexivity.
Qed.

(** X2. A file made of any eight bytes, whole chunks and fewer than eight
    further bytes: the loop returns after one pass per chunk and the map is
    the entries of the text chunks assigned in order.  Neither the first
    eight bytes nor the CRC fields matter. *)
Theorem parsePngTexts_reads_whole_chunks (sig tail : list byte)
  (cs : list Stream.chunk) (fuel : nat) :
  List.length sig = 8%nat ->
  Forall Stream.well_formed cs ->
  length tail < 8 ->
  (List.length cs < fuel)%nat ->
  parsePngTexts fuel (sig ++ Stream.stream cs ++ tail)
  = Some (fold_left store (Stream.entries cs) ∅).
Proof. apply while_loop_whole_chunks. Qed.

(** X3. A file cut inside its last chunk.  When the cut falls before the end
    of the data, the chunk is dropped; when it falls in the CRC field, the
    chunk is read all the same. *)
Theorem parsePngTexts_reads_cut_file (sig : list byte)
  (cs : list Stream.chunk) (c : Stream.chunk) (k fuel : nat) :
  List.length sig = 8%nat ->
  Forall Stream.well_formed cs ->
  Stream.well_formed c ->
  (S (List.length cs) < fuel)%nat ->
  parsePngTexts fuel (sig ++ Stream.stream cs ++ take k (Stream.chunk_bytes c))
  = Some (fold_left store
            (Stream.entries
               (if (k <? 8 + List.length (Stream.data c))%nat then cs
                else cs ++ [c])) ∅).
Proof.
  intros Hsig Hwf Hc Hfuel. unfold parsePngTexts.
  pose proof Hc as (Hty & Hcrc & Hlen).
  replace 8 with (length sig) by (unfold length; rewrite Hsig; reflexivity).
  replace fuel with (List.length cs + S (S (fuel - S (S (List.length cs)))))%nat
    by lia.
  rewrite while_loop_chunks by exact Hwf.
  set (pre := sig ++ Stream.stream cs).
  rewrite app_assoc. fold pre.
  set (texts := fold_left store (Stream.entries cs) ∅).
  set (n := List.length (Stream.data c)).
  assert (length (Stream.data c) = Z.of_nat n) as Hn by reflexivity.
  destruct (Nat.ltb_spec k (8 + n)) as [Hk|Hk].
  - (* the data is cut, or not even the header is there *)
    cbn [while_loop].
    assert (loop_body (pre ++ take k (Stream.chunk_bytes c)) (length pre) texts
            = None) as ->; [|reflexivity].
    destruct (Nat.lt_ge_cases k 8) as [Hk8|Hk8].
    + apply exit_on_short_rest. unfold length. rewrite length_take. lia.
    + unfold Stream.chunk_bytes.
      rewrite take_app_ge by (simpl; lia).
      apply exit_on_cut_data; [rewrite Hn; lia|].
      unfold length at 1. rewrite length_take, !List.length_app, Hty, Hn.
      simpl List.length. lia.
  - (* the data is whole *)
    assert (take k (Stream.chunk_bytes c)
            = Codec.be32 (length (Stream.data c)) ++ Stream.type c
              ++ Stream.data c ++ take (k - 8 - n) (Stream.crc c)) as ->.
    { unfold Stream.chunk_bytes.
      rewrite take_app_ge by (simpl; lia).
      rewrite take_app_ge by (simpl; lia).
      rewrite take_app_ge by (simpl; fold n; lia).
      do 3 f_equal. f_equal. simpl List.length. rewrite Hty. fold n. lia. }
    cbn [while_loop]. rewrite pass_over_chunk by assumption.
    assert (loop_body
              (pre ++ Codec.be32 (length (Stream.data c)) ++ Stream.type c
                   ++ Stream.data c ++ take (k - 8 - n) (Stream.crc c))
              (length pre + 12 + length (Stream.data c))
              (store_opt texts (Stream.entry_of c)) = None) as ->.
    { apply loop_body_None. left. rewrite !length_app, length_be32.
      unfold length at 2 4. rewrite Hty, length_take, Hcrc. lia. }
    unfold Stream.entries. rewrite omap_app, fold_left_app. simpl omap.
    fold (Stream.entries cs). fold texts.
    destruct (Stream.entry_of c); reflexivity.
Qed.

End StreamProperties.

Section TextFacts.
Import JS HistoryLoader.

Lemma utf8_decode_ascii_bytes (bs : list byte) :
  Stream.ascii bs -> utf8_decode bs = map byte_val bs.
Proof.
  unfold utf8_decode, Stream.ascii.
  induction 1 as [|b bs Hb _ IH]; [reflexivity|].
  rewrite utf8_run_lead. unfold utf8_lead.
  destruct (Z.leb_spec (byte_val b) 0x7F); [|lia].
  rewrite IH. reflexivity.
Qed.

Lemma TextDecoder_decode_ascii (bs : list byte) :
  Stream.ascii bs -> TextDecoder_decode bs = Stream.chars bs.
Proof.
  intros Ha. unfold TextDecoder_decode, Stream.chars.
  rewrite utf8_decode_ascii_bytes by exact Ha.
  assert (drop_bom (map byte_val bs) = map byte_val bs) as ->.
  { destruct Ha as [|b bs Hb _]; [reflexivity|]. simpl.
    destruct (Z.eqb_spec (byte_val b) 0xFEFF); [lia | reflexivity]. }
  induction Ha as [|b bs Hb _ IH]; [reflexivity|].
  simpl. rewrite IH. unfold utf16_units.
  destruct (Z.ltb_spec (byte_val b) 0x10000); [reflexivity | lia].
Qed.

Lemma entry_of_tEXt (k t crc : list byte) :
  (x00 ∉ k) ->
  Stream.entry_of (Stream.tEXt k t crc)
  = Some (TextDecoder_decode k, TextDecoder_decode t).
Proof.
  intros Hk. unfold Stream.entry_of, Stream.tEXt. cbn [Stream.type Stream.data].
  destruct (decide _) as [_|Hne]; [|exfalso; apply Hne; reflexivity].
  rewrite split_at_zero_first by exact Hk. reflexivity.
Qed.

End TextFacts.

Section TextChunkProperties.
Import JS HistoryLoader.

(** X4. In a file of whole chunks, the text under an ASCII keyword is the
    text of the last [tEXt] chunk that carries the keyword. *)
Theorem parsePngTexts_finds_last_text (sig tail k t crc : list byte)
  (cs1 cs2 : list Stream.chunk) (fuel : nat) :
  List.length sig = 8%nat ->
  Forall Stream.well_formed (cs1 ++ Stream.tEXt k t crc :: cs2) ->
  length tail < 8 ->
  (List.length (cs1 ++ Stream.tEXt k t crc :: cs2) < fuel)%nat ->
  Stream.ascii k -> (x00 ∉ k) -> Stream.chars k <> proto_key ->
  Stream.ascii t ->
  (Stream.chars k ∉ map fst (Stream.entries cs2)) ->
  exists m,
    parsePngTexts fuel
      (sig ++ Stream.stream (cs1 ++ Stream.tEXt k t crc :: cs2) ++ tail)
    = Some m
    /\ m !! Stream.chars k = Some (Stream.chars t).
Proof.
  intros Hsig Hwf Htail Hfuel Hk Hz Hproto Ht Hlast.
  eexists. split.
  - apply while_loop_whole_chunks; assumption.
  - unfold Stream.entries. rewrite omap_app. simpl omap.
    rewrite entry_of_tEXt by exact Hz.
    rewrite !TextDecoder_decode_ascii by assumption.
    apply fold_store_last; assumption.
Qed.

(** X5. Whatever the buffer, the object returned has no own property
    [__proto__]: a text stored under that keyword is never kept. *)
Theorem parsePngTexts_never_binds_proto (fuel : nat) (uint8 : list byte)
  (m : gmap (list Z) (list Z)) :
  parsePngTexts fuel uint8 = Some m -> m !! str "__proto__" = None.
Proof.
  intros Hm. rewrite (parsePngTexts_entries _ _ _ Hm).
  change (str "__proto__") with proto_key. rewrite fold_store_proto.
  apply lookup_empty.
Qed.

End TextChunkProperties.

(** ** More on the walk *)

Section WalkMore.
Import JS HistoryLoader.

(** X1. [readUint32] is the big-endian value of the four bytes (a byte
    outside the array counting as 0) wrapped to a signed 32-bit integer: the
    value itself below 2^31, the value minus 2^32 from there on. *)
Theorem readUint32_wraps_to_signed (uint8 : list byte) (pos : Z) :
  - 2 ^ 31 <= readUint32 uint8 pos < 2 ^ 31
  /\ (readUint32 uint8 pos - declared_length uint8 pos) mod 2 ^ 32 = 0
  /\ (readUint32 uint8 pos < 0 <-> 2 ^ 31 <= declared_length uint8 pos).
Proof.
  rewrite readUint32_cases.
  pose proof (declared_length_bounds uint8 pos) as Hd.
  destruct (Z.ltb_spec (declared_length uint8 pos) (2 ^ 31)).
  - rewrite Z.sub_diag. split; [lia|]. split; [reflexivity | lia].
  - split; [lia|]. split; [|lia].
    replace (declared_length uint8 pos - 2 ^ 32 - declared_length uint8 pos)
      with (-1 * 2 ^ 32) by lia.
    apply Z.mod_mul. lia.
Qed.

(** The loop after the passes that [emitted] lists. *)
Lemma while_loop_after (n : nat) (uint8 : list byte) :
  forall (offset offset' : Z) (cs : list Chunk)
         (texts : gmap (list Z) (list Z)) (fuel : nat),
    emitted n uint8 offset = (cs, offset') ->
    List.length cs = n ->
    while_loop fuel uint8 offset texts
    = if (fuel <=? n)%nat then None
      else while_loop (fuel - n) uint8 offset'
             (fold_left store_opt (map text_entry cs) texts).
Proof.
  induction n as [|n IH]; intros offset offset' cs texts fuel Hem Hlen.
  - simpl in Hem. injection Hem as <- <-. simpl.
    destruct fuel; [reflexivity|]. simpl Nat.leb. cbn iota.
    rewrite Nat.sub_0_r. reflexivity.
  - simpl in Hem.
    destruct (next_offset uint8 offset) as [o1|] eqn:Hn.
    + destruct (emitted n uint8 o1) as [cs1 o2] eqn:Hem1.
      simpl in Hem. injection Hem as <- <-. simpl in Hlen.
      destruct fuel as [|fuel]; [reflexivity|].
      cbn [while_loop]. rewrite (next_offset_Some _ _ _ texts Hn).
      rewrite (IH o1 o2 cs1 _ fuel Hem1) by lia.
      simpl Nat.leb. simpl Nat.sub. reflexivity.
    + injection Hem as <- <-. discriminate Hlen.
Qed.

Lemma store_opt_twice (texts : gmap (list Z) (list Z))
  (e : option (list Z * list Z)) :
  store_opt (store_opt texts e) e = store_opt texts e.
Proof.
  destruct e as [[k v]|]; [|reflexivity]. unfold store_opt, store, set. simpl.
  destruct (decide (k = proto_key)); [reflexivity|].
  apply insert_insert_eq.
Qed.

(** A pass that reads the length -12 comes back to its own offset; from the
    second pass on nothing changes any more. *)
Lemma hang_at_minus_12 (uint8 : list byte) (offset : Z)
  (texts : gmap (list Z) (list Z)) :
  offset + 8 <= length uint8 ->
  readUint32 uint8 offset = -12 ->
  forall fuel, while_loop fuel uint8 offset texts = None.
Proof.
  intros Hhdr Hread.
  assert (forall t, loop_body uint8 offset t
                    = Some (offset,
                            store_opt t (text_entry (chunk_view uint8 offset))))
    as Hpass.
  { intros t. destruct (loop_body uint8 offset t) as [[o' t']|] eqn:Hb.
    - apply loop_body_Some in Hb as (_ & _ & -> & ->). rewrite Hread.
      f_equal. f_equal. lia.
    - apply loop_body_None in Hb. rewrite Hread in Hb. lia. }
  intros [|fuel]; [reflexivity|]. cbn [while_loop]. rewrite Hpass.
  apply while_loop_stuck. rewrite Hpass, store_opt_twice. reflexivity.
Qed.

(** X7. Whenever the walk reaches a chunk header whose length field is
    FF FF FF F4, it stays there: [parsePngTexts] does not return, whatever
    came before and whatever the type of the chunk. *)
Theorem parsePngTexts_hangs_at_FFFFFFF4 (uint8 : list byte) (n : nat)
  (cs : list Chunk) (offset : Z) :
  emitted n uint8 8 = (cs, offset) ->
  List.length cs = n ->
  offset + 8 <= length uint8 ->
  declared_length uint8 offset = 2 ^ 32 - 12 ->
  forall fuel, parsePngTexts fuel uint8 = None.
Proof.
  intros Hem Hlen Hhdr Hdecl fuel.
  assert (readUint32 uint8 offset = -12) as Hread.
  { rewrite readUint32_cases, Hdecl. reflexivity. }
  unfold parsePngTexts.
  rewrite (while_loop_after n uint8 8 offset cs _ fuel Hem Hlen).
  destruct (fuel <=? n)%nat; [reflexivity|].
  apply hang_at_minus_12; assumption.
Qed.

(** X6. A buffer of fewer than 16 bytes, the empty one included, has no room
    for a chunk header behind the signature: the map is empty after the
    first test of the loop, and [readPngWorkflow] rejects with the message
    that names the key asked for. *)
Theorem too_short_for_any_chunk (arr : list byte) (fuel : nat) :
  length arr < 16 ->
  parsePngTexts (S fuel) arr = Some ∅
  /\ readPngWorkflow (S fuel) arr (str "prompt")
     = Some (Reject (str "No 'prompt' metadata found in PNG."))
  /\ forall w, w <> str "prompt" ->
       readPngWorkflow (S fuel) arr w
       = Some (Reject (str "No 'workflow' metadata found in PNG.")).
Proof.
  intros Hshort.
  assert (parsePngTexts (S fuel) arr = Some ∅) as Hm.
  { unfold parsePngTexts. cbn [while_loop].
    assert (loop_body arr 8 ∅ = None) as ->; [|reflexivity].
    apply loop_body_None. left. lia. }
  split; [exact Hm|]. unfold readPngWorkflow. rewrite Hm. split.
  - reflexivity.
  - intros w Hw. destruct (decide (w = str "prompt")); [contradiction|].
    reflexivity.
Qed.

End WalkMore.

(** ** The two loads *)

Section LoaderProperties.
Import JS HistoryLoader Loaders.
Variable json : Type.
Variable JSON_parse : list Z -> option json.

Lemma loadWorkflowFromPng_cases (fuel : nat) (arr : list byte)
  (texts : gmap (list Z) (list Z)) :
  parsePngTexts fuel arr = Some texts ->
  loadWorkflowFromPng json JSON_parse fuel arr
  = Some match texts !! str "workflow" with
         | None => Fail (str "No 'workflow' metadata found in PNG.")
         | Some s =>
             match JSON_parse s with
             | Some parsed => Load parsed
             | None => Fail (str "Workflow metadata is not valid JSON.")
             end
         end.
Proof.
  intros Hm. unfold loadWorkflowFromPng, readPngWorkflow, has, get_prop.
  rewrite Hm.
  destruct (decide (str "workflow" = str "prompt")) as [Heq|_];
    [discriminate Heq|].
  destruct (texts !! str "workflow"); reflexivity.
Qed.

Lemma loadWorkflowFromRemotePng_cases (fuel : nat) (arr : list byte)
  (texts : gmap (list Z) (list Z)) :
  parsePngTexts fuel arr = Some texts ->
  loadWorkflowFromRemotePng json JSON_parse fuel arr
  = Some match texts !! str "workflow" with
         | None | Some [] => Fail (str "No 'workflow' metadata found in PNG.")
         | Some (c :: s) =>
             match JSON_parse (c :: s) with
             | Some parsed => Load parsed
             | None => Fail (str "Workflow metadata is not valid JSON.")
             end
         end.
Proof.
  intros Hm.
  unfold loadWorkflowFromRemotePng, loadWorkflowFromRemotePng_raw, get_prop.
  rewrite Hm. destruct (texts !! str "workflow") as [[|c s]|]; reflexivity.
Qed.

(** X8. On the same bytes the local and the remote load end alike: the same
    workflow is handed to [app.loadGraphData], or the same message is
    shown; the one exception is a [workflow] text that is empty. *)
Theorem local_and_remote_load_agree (fuel : nat) (arr : list byte)
  (texts : gmap (list Z) (list Z)) :
  parsePngTexts fuel arr = Some texts ->
  texts !! str "workflow" <> Some [] ->
  loadWorkflowFromPng json JSON_parse fuel arr
  = loadWorkflowFromRemotePng json JSON_parse fuel arr.
Proof.
  intros Hm Hne. rewrite (loadWorkflowFromPng_cases _ _ _ Hm).
  rewrite (loadWorkflowFromRemotePng_cases _ _ _ Hm).
  destruct (texts !! str "workflow") as [[|c s]|]; [congruence| |];
    reflexivity.
Qed.

(** X9. From a file of whole chunks both loads hand to [JSON.parse] the text
    of the last [tEXt] chunk with the keyword [workflow], when that text is
    ASCII and not empty, and call [app.loadGraphData] with the result, or
    report that the text is not valid JSON. *)
Theorem loads_last_workflow_chunk (sig tail t crc : list byte)
  (cs1 cs2 : list Stream.chunk) (fuel : nat) :
  let c := Stream.tEXt (map byte_of_Z (str "workflow")) t crc in
  let file := sig ++ Stream.stream (cs1 ++ c :: cs2) ++ tail in
  let ending :=
    match JSON_parse (Stream.chars t) with
    | Some parsed => Load parsed
    | None => Fail (str "Workflow metadata is not valid JSON.")
    end in
  List.length sig = 8%nat ->
  Forall Stream.well_formed (cs1 ++ c :: cs2) ->
  length tail < 8 ->
  (List.length (cs1 ++ c :: cs2) < fuel)%nat ->
  Stream.ascii t -> t <> [] ->
  (str "workflow" ∉ map fst (Stream.entries cs2)) ->
  loadWorkflowFromPng json JSON_parse fuel file = Some ending
  /\ loadWorkflowFromRemotePng json JSON_parse fuel file = Some ending.
Proof.
  intros c file ending Hsig Hwf Htail Hfuel Ht Hne Hlast.
  assert (parsePngTexts fuel file
          = Some (fold_left store (Stream.entries (cs1 ++ c :: cs2)) ∅)) as Hm
    by (apply while_loop_whole_chunks; assumption).
  assert (fold_left store (Stream.entries (cs1 ++ c :: cs2)) ∅
            !! str "workflow" = Some (Stream.chars t)) as Hw.
  { assert (Stream.entry_of c = Some (str "workflow", Stream.chars t)) as He.
    { unfold c.
      rewrite entry_of_tEXt by (apply no_zero_byte; vm_compute; reflexivity).
      rewrite (TextDecoder_decode_ascii t) by exact Ht. reflexivity. }
    unfold Stream.entries. rewrite omap_app.
    change (omap Stream.entry_of (c :: cs2))
      with (match Stream.entry_of c with
            | Some e => e :: omap Stream.entry_of cs2
            | None => omap Stream.entry_of cs2
            end).
    rewrite He. apply fold_store_last; [discriminate | exact Hlast]. }
  rewrite (loadWorkflowFromPng_cases _ _ _ Hm).
  rewrite (loadWorkflowFromRemotePng_cases _ _ _ Hm). rewrite Hw.
  split; [reflexivity|].
  destruct t as [|b t]; [contradiction | reflexivity].
Qed.

End LoaderProperties.

(** ** The chunk loop of the module-based copy *)

Section ModuleWalkProperties.
Import JS ModuleLoader ModuleWalk.
Variable decodeTextChunk : list byte -> completion txt.
Variable decodeZtextChunk : list byte -> completion txt.

(** X10. In the copy that goes through the PNG module, the loop ends normally
    when no [tEXt] chunk fails to decode, whatever the [zTXt] chunks do, and
    the map is then the entries assigned in order. *)
Theorem collect_normal (chunks : list chunk) (texts : gmap (list Z) (list Z)) :
  (forall c err, c ∈ chunks -> ~ throws decodeTextChunk c err) ->
  collect decodeTextChunk decodeZtextChunk chunks texts
  = Normal (fold_left HistoryLoader.store
              (omap (entry decodeTextChunk decodeZtextChunk) chunks) texts).
Proof.
  revert texts. induction chunks as [|c chunks IH]; intros texts Hok.
  - reflexivity.
  - assert (forall c' err, c' ∈ chunks -> ~ throws decodeTextChunk c' err)
      as Hrest by (intros c' err Hin; apply Hok; apply elem_of_cons; tauto).
    cbn [collect omap]. unfold entry at 1, omap. cbn [list_omap].
    fold (omap (entry decodeTextChunk decodeZtextChunk) chunks).
    destruct (decide (name c = str "tEXt")) as [Ht|Ht].
    + destruct (decodeTextChunk (data c)) as [t|err] eqn:Hd.
      * rewrite IH by exact Hrest. reflexivity.
      * exfalso. apply (Hok c err); [apply elem_of_cons; tauto|].
        split; assumption.
    + destruct (decide (name c = str "zTXt")) as [Hz|Hz].
      * destruct (decodeZtextChunk (data c)); rewrite IH by exact Hrest;
          reflexivity.
      * rewrite IH by exact Hrest. reflexivity.
Qed.

(** X11. The first [tEXt] chunk whose decoding throws ends the loop with its
    error: nothing of the chunks behind it is looked at, and the entries
    before it are lost with the map. *)
Theorem collect_throws (before after : list chunk) (c : chunk)
  (err : list Z) (texts : gmap (list Z) (list Z)) :
  (forall c' err', c' ∈ before -> ~ throws decodeTextChunk c' err') ->
  throws decodeTextChunk c err ->
  collect decodeTextChunk decodeZtextChunk (before ++ c :: after) texts
  = Throw err.
Proof.
  revert texts. induction before as [|b before IH]; intros texts Hok [Hn Hd].
  - cbn [app collect]. destruct (decide (name c = str "tEXt")); [|contradiction].
    rewrite Hd. reflexivity.
  - assert (forall c' err', c' ∈ before -> ~ throws decodeTextChunk c' err')
      as Hrest by (intros c' err' Hin; apply Hok; apply elem_of_cons; tauto).
    cbn [app collect].
    destruct (decide (name b = str "tEXt")) as [Ht|Ht].
    + destruct (decodeTextChunk (data b)) as [t|err'] eqn:Hb.
      * apply IH; [exact Hrest | split; assumption].
      * exfalso. apply (Hok b err'); [apply elem_of_cons; tauto|].
        split; assumption.
    + destruct (decide (name b = str "zTXt")) as [Hz|Hz].
      * destruct (decodeZtextChunk (data b)); apply IH;
          solve [exact Hrest | split; assumption].
      * apply IH; [exact Hrest | split; assumption].
Qed.

End ModuleWalkProperties.

(** ** Load Text *)

Section LoadTextProperties.
Import JS LoadText.
Variable K : Type.
Context {EqK : EqDecision K} {CountK : Countable K}.
Variable V : Type.

Lemma set_text_names (ws ws' : list (widget V)) (v : V) :
  set_text V ws v = Some ws' -> map (w_name V) ws' = map (w_name V) ws.
Proof.
  revert ws'. induction ws as [|w ws IH]; intros ws'; simpl; [discriminate|].
  destruct (decide _).
  - intros [= <-]. reflexivity.
  - destruct (set_text V ws v) as [rest|]; [|discriminate].
    intros [= <-]. simpl. rewrite (IH rest eq_refl). reflexivity.
Qed.

Lemma set_text_twice (ws ws' : list (widget V)) (v v' : V) :
  set_text V ws v = Some ws' -> set_text V ws' v' = set_text V ws v'.
Proof.
  revert ws'. induction ws as [|w ws IH]; intros ws'; simpl; [discriminate|].
  destruct (decide (w_name V w = str "text")) as [Hn|Hn].
  - intros [= <-]. simpl. destruct (decide _); [reflexivity|contradiction].
  - destruct (set_text V ws v) as [rest|]; [|discriminate].
    intros [= <-]. simpl. destruct (decide _); [contradiction|].
    rewrite (IH rest eq_refl). reflexivity.
Qed.

Lemma set_text_some_iff (ws : list (widget V)) (v v' : V) :
  is_Some (set_text V ws v) -> is_Some (set_text V ws v').
Proof.
  induction ws as [|w ws IH]; simpl; [intros [? [=]]|].
  destruct (decide _); [eauto|].
  destruct (set_text V ws v); [|intros [? [=]]].
  intros _. destruct (IH (ltac:(eauto))) as [r ->]. eauto.
Qed.

Lemma write_twice (nd : node V) (v v' : V) :
  write V (write V nd v) v' = write V nd v'.
Proof.
  unfold write. destruct nd as [[ws|]]; simpl; [|reflexivity].
  destruct (set_text V ws v) as [ws1|] eqn:H1; simpl.
  - rewrite (set_text_twice _ _ _ v' H1).
    destruct (set_text_some_iff ws v v') as [ws2 ->]; [eauto | reflexivity].
  - reflexivity.
Qed.

Lemma graph_after_visit (st : state K V) (e : entry K V) (k : K) :
  graph K V (visit K V st e) !! k
  = (fun nd => if decide (id K V e = k) then write V nd (text K V e) else nd)
      <$> graph K V st !! k.
Proof.
  unfold visit, write.
  destruct (decide (id K V e = k)) as [<-|Hne].
  - destruct (graph K V st !! id K V e) as [[[ws|]]|] eqn:Hg; simpl.
    + destruct (set_text V ws (text K V e)); simpl.
      * rewrite lookup_insert_eq. reflexivity.
      * rewrite Hg. reflexivity.
    + rewrite Hg. reflexivity.
    + rewrite Hg. reflexivity.
  - assert ((fun nd : node V => nd) <$> graph K V st !! k = graph K V st !! k)
      as -> by (destruct (graph K V st !! k); reflexivity).
    destruct (graph K V st !! id K V e) as [[[ws|]]|]; simpl; try reflexivity.
    destruct (set_text V ws (text K V e)); simpl; [|reflexivity].
    apply lookup_insert_ne. exact Hne.
Qed.

(** The graph after the visits, node by node. *)
Lemma graph_after_visits (es : list (entry K V)) :
  forall (st : state K V) (k : K),
    graph K V (fold_left (visit K V) es st) !! k
    = written K V es k <$> graph K V st !! k.
Proof.
  induction es as [|e es IH]; intros st k; simpl.
  - destruct (graph K V st !! k); reflexivity.
  - rewrite IH, graph_after_visit.
    destruct (graph K V st !! k); reflexivity.
Qed.

Lemma counters_after_visits (es : list (entry K V)) :
  forall st : state K V,
    applied K V (fold_left (visit K V) es st)
    + missing K V (fold_left (visit K V) es st)
    = applied K V st + missing K V st + length es
    /\ applied K V st <= applied K V (fold_left (visit K V) es st)
    /\ missing K V st <= missing K V (fold_left (visit K V) es st).
Proof.
  induction es as [|e es IH]; intros st; simpl.
  - unfold length. simpl. lia.
  - destruct (IH (visit K V st e)) as (Hsum & Ha & Hm).
    assert (applied K V (visit K V st e) + missing K V (visit K V st e)
            = applied K V st + missing K V st + 1
            /\ applied K V st <= applied K V (visit K V st e)
            /\ missing K V st <= missing K V (visit K V st e)) as (Hs1 & Ha1 & Hm1).
    { unfold visit. destruct (graph K V st !! id K V e) as [[[ws|]]|]; simpl;
        try lia.
      destruct (set_text V ws (text K V e)); simpl; lia. }
    unfold length in *. simpl List.length. lia.
Qed.

Lemma written_other (es : list (entry K V)) (k : K) (nd : node V) :
  (forall e, e ∈ es -> id K V e <> k) -> written K V es k nd = nd.
Proof.
  revert nd. induction es as [|e es IH]; intros nd Hne; [reflexivity|].
  unfold written. simpl.
  destruct (decide (id K V e = k)) as [Heq|_].
  - exfalso. apply (Hne e); [apply elem_of_cons; tauto | exact Heq].
  - apply IH. intros e' Hin. apply Hne. apply elem_of_cons. tauto.
Qed.

Lemma written_cons (e : entry K V) es (k : K) (nd : node V) :
  written K V (e :: es) k nd
  = written K V es k
      (if decide (id K V e = k) then write V nd (text K V e) else nd).
Proof. reflexivity. Qed.

Lemma written_app (es1 es2 : list (entry K V)) (k : K) (nd : node V) :
  written K V (es1 ++ es2) k nd = written K V es2 k (written K V es1 k nd).
Proof. unfold written. apply fold_left_app. Qed.

Lemma write_written (es : list (entry K V)) (k : K) (v : V) :
  forall nd : node V, write V (written K V es k nd) v = write V nd v.
Proof.
  induction es as [|e es IH]; intros nd; [reflexivity|].
  rewrite written_cons, IH.
  destruct (decide _); [apply write_twice | reflexivity].
Qed.

Lemma written_last (es1 es2 : list (entry K V)) (e : entry K V) (nd : node V) :
  (forall e', e' ∈ es2 -> id K V e' <> id K V e) ->
  written K V (es1 ++ e :: es2) (id K V e) nd = write V nd (text K V e).
Proof.
  intros Hlast. rewrite written_app, written_cons.
  destruct (decide (id K V e = id K V e)) as [_|Hne]; [|contradiction].
  rewrite written_other by exact Hlast. apply write_written.
Qed.

Lemma applies_after_visit (st : state K V) (e e' : entry K V) :
  applies K V (graph K V (visit K V st e)) e' = applies K V (graph K V st) e'.
Proof.
  unfold applies. rewrite graph_after_visit.
  destruct (graph K V st !! id K V e') as [[[ws|]]|]; simpl; try reflexivity;
    destruct (decide _); try reflexivity; unfold write; simpl.
  destruct (set_text V ws (text K V e)) as [ws1|] eqn:H1; [|reflexivity].
  rewrite (set_text_twice _ _ _ _ H1). reflexivity.
Qed.

Lemma applied_after_visits (es : list (entry K V)) :
  forall st : state K V,
    applied K V (fold_left (visit K V) es st)
    = applied K V st + length (filter (fun e => applies K V (graph K V st) e = true) es).
Proof.
  induction es as [|e es IH]; intros st.
  - unfold length. simpl. lia.
  - cbn [fold_left]. rewrite IH.
    assert (filter (fun e0 => applies K V (graph K V (visit K V st e)) e0 = true) es
            = filter (fun e0 => applies K V (graph K V st) e0 = true) es) as ->.
    { apply list_filter_iff. intros e0. rewrite applies_after_visit. tauto. }
    assert (applied K V (visit K V st e)
            = applied K V st
              + if applies K V (graph K V st) e then 1 else 0) as Hv.
    { unfold visit, applies.
      destruct (graph K V st !! id K V e) as [[[ws|]]|]; simpl; try lia.
      destruct (set_text V ws (text K V e)); simpl; lia. }
    rewrite filter_cons, Hv.
    destruct (decide (applies K V (graph K V st) e = true)) as [Ht|Hf].
    + rewrite Ht. unfold length. simpl List.length. lia.
    + apply not_true_is_false in Hf. rewrite Hf. lia.
Qed.

(** What the search and the assignment do to a list of widgets: the first
    widget named [text] gets the value and nothing else changes. *)
Lemma set_text_found (pre post : list (widget V)) (w : widget V) (v : V) :
  Forall (fun w' => w_name V w' <> str "text") pre ->
  w_name V w = str "text" ->
  set_text V (pre ++ w :: post) v
  = Some (pre ++ Widget V (str "text") v :: post).
Proof.
  intros Hpre Hw. induction Hpre as [|w' pre Hw' _ IH]; simpl.
  - destruct (decide _); [|contradiction]. rewrite Hw. reflexivity.
  - destruct (decide _); [contradiction|]. rewrite IH. reflexivity.
Qed.

Lemma set_text_not_found (ws : list (widget V)) (v : V) :
  Forall (fun w => w_name V w <> str "text") ws -> set_text V ws v = None.
Proof.
  induction 1 as [|w ws Hw _ IH]; simpl; [reflexivity|].
  destruct (decide _); [contradiction|]. rewrite IH. reflexivity.
Qed.

Lemma set_text_finds (ws : list (widget V)) (v : V) :
  match set_text V ws v with Some _ => true | None => false end
  = existsb (names_text V) ws.
Proof.
  induction ws as [|w ws IH]; simpl; [reflexivity|].
  unfold names_text at 1.
  destruct (decide (w_name V w = str "text")) as [Hn|Hn].
  - rewrite bool_decide_eq_true_2 by exact Hn. reflexivity.
  - rewrite bool_decide_eq_false_2 by exact Hn. simpl. rewrite <- IH.
    destruct (set_text V ws v); reflexivity.
Qed.

Lemma applies_has_text_widget (g : gmap K (node V)) (e : entry K V) :
  applies K V g e = has_text_widget K V g e.
Proof.
  unfold applies, has_text_widget.
  destruct (g !! id K V e) as [[[ws|]]|]; simpl; try reflexivity.
  apply set_text_finds.
Qed.

Lemma filter_split_length {A : Type} (f : A -> bool) (l : list A) :
  (List.length (filter (fun a => f a = true) l)
   + List.length (filter (fun a => f a = false) l)
   = List.length l)%nat.
Proof.
  induction l as [|a l IH]; [reflexivity|].
  rewrite !filter_cons.
  destruct (f a) eqn:Hf; repeat case_decide; try congruence;
    simpl; lia.
Qed.

(** X12. The Load Text handler fails exactly when the save has no CLIP texts;
    otherwise every entry is counted once: [applied] is the number of
    entries whose node exists, has widgets and has a widget named [text],
    [missing] the number of the others. *)
Theorem loadTexts_counts (clip_texts : option (list (entry K V)))
  (g : gmap K (node V)) :
  match loadTexts K V clip_texts g with
  | Error message =>
      message = str "No CLIP text data in this save."
      /\ (clip_texts = None \/ clip_texts = Some [])
  | Status st =>
      exists es, clip_texts = Some es /\ es <> []
        /\ applied K V st
           = length (filter (fun e => has_text_widget K V g e = true) es)
        /\ missing K V st
           = length (filter (fun e => has_text_widget K V g e = false) es)
  end.
Proof.
  unfold loadTexts. destruct clip_texts as [[|e es]|]; simpl.
  - split; [reflexivity | tauto].
  - exists (e :: es). split; [reflexivity|]. split; [discriminate|].
    pose proof (applied_after_visits (e :: es) (State K V g 0 0)) as Ha.
    pose proof (counters_after_visits (e :: es) (State K V g 0 0))
      as (Hs & _ & _).
    cbn [fold_left] in Ha, Hs. simpl in Ha, Hs.
    assert (filter (fun e0 => applies K V g e0 = true) (e :: es)
            = filter (fun e0 => has_text_widget K V g e0 = true) (e :: es))
      as Hsame.
    { apply list_filter_iff. intros e0. rewrite applies_has_text_widget.
      tauto. }
    rewrite Hsame in Ha. split; [exact Ha|].
    pose proof (filter_split_length (has_text_widget K V g) (e :: es)) as Hl.
    unfold length in *. lia.
  - split; [reflexivity | tauto].
Qed.

(** The graph after Load Text in terms of [write]. *)
Lemma graph_after_loadTexts (es1 es2 : list (entry K V)) (e : entry K V)
  (g : gmap K (node V)) (k : K) :
  (forall e', e' ∈ es2 -> id K V e' <> id K V e) ->
  match loadTexts K V (Some (es1 ++ e :: es2)) g with
  | Error _ => False
  | Status st =>
      graph K V st !! id K V e
      = (fun nd => write V nd (text K V e)) <$> g !! id K V e
      /\ ((forall e', e' ∈ es1 ++ e :: es2 -> id K V e' <> k) ->
          graph K V st !! k = g !! k)
      /\ dom (graph K V st) = dom g
  end.
Proof.
  intros Hlast. unfold loadTexts.
  assert ((JS.length (es1 ++ e :: es2) =? 0) = false) as ->.
  { apply Z.eqb_neq. unfold length. rewrite List.length_app. simpl. lia. }
  split; [|split].
  - rewrite graph_after_visits. simpl.
    destruct (g !! id K V e); simpl; [|reflexivity].
    rewrite written_last by exact Hlast. reflexivity.
  - intros Hk. rewrite graph_after_visits. simpl.
    destruct (g !! k); simpl; [|reflexivity].
    rewrite written_other by exact Hk. reflexivity.
  - apply set_eq. intros k'. rewrite !elem_of_dom, graph_after_visits. simpl.
    rewrite fmap_is_Some. reflexivity.
Qed.

(** X13. After Load Text on entries [es1 ++ e :: es2], where no entry behind
    [e] has its id: when the node that [e] addresses has the widgets
    [pre ++ w :: post] with [w] the first one named [text], it ends with the
    widgets [pre], a widget named [text] whose value is the text of [e], and
    [post]; when it has no widgets or none named [text], it is as it was;
    a node that no entry addresses is as it was; no node is added or
    removed. *)
Theorem loadTexts_graph (es1 es2 : list (entry K V)) (e : entry K V)
  (g : gmap K (node V)) (k : K) :
  (forall e', e' ∈ es2 -> id K V e' <> id K V e) ->
  match loadTexts K V (Some (es1 ++ e :: es2)) g with
  | Error _ => False
  | Status st =>
      (forall pre w post,
         g !! id K V e = Some (Node V (Some (pre ++ w :: post))) ->
         Forall (fun w' => w_name V w' <> str "text") pre ->
         w_name V w = str "text" ->
         graph K V st !! id K V e
         = Some (Node V (Some (pre ++ Widget V (str "text") (text K V e)
                                :: post))))
      /\ (forall nd,
            g !! id K V e = Some nd ->
            match widgets V nd with
            | Some ws => Forall (fun w => w_name V w <> str "text") ws
            | None => True
            end ->
            graph K V st !! id K V e = Some nd)
      /\ ((forall e', e' ∈ es1 ++ e :: es2 -> id K V e' <> k) ->
          graph K V st !! k = g !! k)
      /\ dom (graph K V st) = dom g
  end.
Proof.
  intros Hlast.
  pose proof (graph_after_loadTexts es1 es2 e g k Hlast) as H.
  destruct (loadTexts K V (Some (es1 ++ e :: es2)) g) as [st|message];
    [|exact H].
  destruct H as (Hnode & Hother & Hdom).
  split; [|split; [|split; [exact Hother | exact Hdom]]].
  - intros pre w post Hg Hpre Hw. rewrite Hnode, Hg. simpl.
    unfold write. simpl. rewrite set_text_found by assumption. reflexivity.
  - intros nd Hg Hnone. rewrite Hnode, Hg. simpl. unfold write.
    destruct nd as [[ws|]]; simpl in *; [|reflexivity].
    rewrite set_text_not_found by exact Hnone. reflexivity.
Qed.

End LoadTextProperties.

(** ** The menu buttons *)

Section MenuProperties.
Import JS Menu.

Lemma addMenuButton_from (fuel : nat) (page : Z -> document) :
  forall attempt : Z,
    0 <= attempt <= 20 -> (Z.to_nat (20 - attempt) < fuel)%nat ->
    match addMenuButton fuel page attempt with
    | Some (Placed n d) =>
        attempt <= n <= 20
        /\ (exists m, menu (page n) = Some m /\ d = place_buttons (page n) m)
        /\ forall i, attempt <= i < n -> menu (page i) = None
    | Some GaveUp => forall i, attempt <= i <= 20 -> menu (page i) = None
    | None => False
    end.
Proof.
  induction fuel as [|fuel IH]; intros attempt Ha Hfuel; [lia|].
  cbn [addMenuButton].
  destruct (menu (page attempt)) as [m|] eqn:Hm.
  - split; [lia|]. split; [eauto|]. intros i Hi. lia.
  - destruct (Z.ltb_spec attempt 20) as [Hlt|Hge].
    + specialize (IH (attempt + 1) ltac:(lia) ltac:(lia)).
      destruct (addMenuButton fuel page (attempt + 1)) as [[n d|]|];
        [|  |exact IH].
      * destruct IH as (Hn & Hd & Hbefore). split; [lia|]. split; [exact Hd|].
        intros i Hi. destruct (Z.eq_dec i attempt) as [->|]; [exact Hm|].
        apply Hbefore. lia.
      * intros i Hi. destruct (Z.eq_dec i attempt) as [->|]; [exact Hm|].
        apply IH. lia.
    + intros i Hi. replace i with attempt by lia. exact Hm.
Qed.

(** X14. [addMenuButton()] looks for the menu at most 21 times.  It places
    the buttons at the first call that finds the menu, after that many
    timers of 250 ms, and gives up for good when the menu is not there at
    any of the calls 0 to 20. *)
Theorem addMenuButton_retries (page : Z -> document) :
  match addMenuButton 21 page 0 with
  | Some (Placed n d) =>
      0 <= n <= 20
      /\ (exists m, menu (page n) = Some m /\ d = place_buttons (page n) m)
      /\ forall i, 0 <= i < n -> menu (page i) = None
  | Some GaveUp => forall i, 0 <= i <= 20 -> menu (page i) = None
  | None => False
  end.
Proof. apply addMenuButton_from; simpl; lia. Qed.

Lemma existing_spec d id : existing d id = true <-> id ∈ ids d.
Proof. unfold existing. apply bool_decide_eq_true. Qed.

Lemma fresh_spec d id :
  id ∈ filter (fun id => existing d id = false) buttons
  <-> id ∈ buttons /\ id ∉ ids d.
Proof.
  rewrite list_elem_of_filter, <- existing_spec.
  destruct (existing d id); intuition congruence.
Qed.

Lemma NoDup_buttons : NoDup buttons.
Proof.
  unfold buttons. repeat (apply NoDup_cons; split;
    [rewrite ?not_elem_of_cons; repeat split; try discriminate;
     apply not_elem_of_nil|]).
  apply NoDup_nil. exact I.
Qed.

Lemma ids_place_buttons (d : document) (m : menu_el) :
  menu d = Some m ->
  ids (place_buttons d m)
  ≡ₚ ids d ++ filter (fun id => existing d id = false) buttons.
Proof.
  intros Hm. unfold place_buttons, ids. rewrite Hm.
  set (f := filter _ buttons).
  set (b := match fab d with Some l => l | None => [] end).
  destruct (displayed m); cbn [menu fab elsewhere children]; fold b.
  - rewrite <- !app_assoc. apply Permutation_app_head.
    rewrite (app_assoc b). apply Permutation_app_comm.
  - rewrite <- !app_assoc. do 2 apply Permutation_app_head.
    apply Permutation_app_comm.
Qed.

Lemma filter_none {A} (P : A -> Prop) `{forall x, Decision (P x)}
  (l : list A) :
  (forall x, x ∈ l -> ~ P x) -> filter P l = [].
Proof.
  induction l as [|x l IH]; intros Hn; [reflexivity|].
  rewrite filter_cons. destruct (decide (P x)) as [Hp|_].
  - exfalso. apply (Hn x); [apply elem_of_cons; tauto | exact Hp].
  - apply IH. intros y Hy. apply Hn. apply elem_of_cons. tauto.
Qed.

(** X15. Where the menu is there, [addMenuButton] leaves every one of the
    five buttons in the page, appends none whose id the page already has
    (ids that were unique stay unique), keeps every other element, and, run
    again on the page it produced, changes nothing. *)
Theorem place_buttons_once (d : document) (m : menu_el) :
  menu d = Some m ->
  (forall id, id ∈ buttons -> id ∈ ids (place_buttons d m))
  /\ (forall id, id ∈ ids d -> id ∈ ids (place_buttons d m))
  /\ (NoDup (ids d) -> NoDup (ids (place_buttons d m)))
  /\ (forall m', menu (place_buttons d m) = Some m' ->
        place_buttons (place_buttons d m) m' = place_buttons d m).
Proof.
  intros Hm. pose proof (ids_place_buttons d m Hm) as Hids.
  assert (forall id, id ∈ buttons -> id ∈ ids (place_buttons d m)) as Hall.
  { intros id Hid. rewrite Hids. apply elem_of_app.
    destruct (decide (id ∈ ids d)); [tauto|]. right. apply fresh_spec. tauto. }
  split; [exact Hall|]. split; [|split].
  - intros id Hid. rewrite Hids. apply elem_of_app. tauto.
  - intros Hnd. rewrite Hids. apply NoDup_app. split; [exact Hnd|]. split.
    + intros id Hin Hfresh. apply fresh_spec in Hfresh. tauto.
    + apply NoDup_filter, NoDup_buttons.
  - intros m' Hm'.
    assert (filter (fun id => existing (place_buttons d m) id = false) buttons
            = []) as Hnone.
    { apply filter_none. intros id Hid Hex.
      apply Hall, existing_spec in Hid. congruence. }
    unfold place_buttons at 1. rewrite Hnone, !app_nil_r.
    unfold place_buttons in Hm' |- *.
    destruct (displayed m) eqn:Hdisp; cbn [menu fab elsewhere] in *.
    + injection Hm' as <-. cbn [displayed children]. reflexivity.
    + rewrite Hm in Hm'. injection Hm' as <-. rewrite Hdisp, Hm.
      reflexivity.
Qed.

End MenuProperties.

(** ** Choosing a picture *)

Section ChooserProperties.
Import JS Chooser.

(** X16. Whatever the text of the selection, the handler never reads a
    property of a file that is not there: it either reports an invalid
    selection or picks a file of the list, and it picks one exactly when
    the text parses to an index below the length of the list. *)
Theorem choose_in_bounds (files : list file) (selection : list Z) :
  match choose files selection with
  | Invalid =>
      forall idx, parseInt selection = Some idx ->
                  idx < 0 \/ length files <= idx
  | Picked relPath =>
      exists idx f, parseInt selection = Some idx
        /\ 0 <= idx < length files
        /\ files !! Z.to_nat idx = Some f
        /\ relPath = (if not (path f) then name f else path f)
  | TypeError => False
  end.
Proof.
  unfold choose. destruct (parseInt selection) as [idx|]; [|discriminate].
  destruct (Z.ltb_spec idx 0) as [Hneg|Hpos]; simpl.
  - intros ? [= <-]. lia.
  - destruct (Z.geb_spec idx (length files)) as [Hge|Hlt].
    + intros ? [= <-]. lia.
    + destruct (files !! Z.to_nat idx) as [f|] eqn:Hf.
      * exists idx, f. repeat split; try lia; trivial.
      * apply lookup_ge_None in Hf. unfold length in Hlt. lia.
Qed.

Lemma digits_value_uint (d : Decimal.uint) : forall acc : nat,
  digits_value (Z.of_nat acc) (uint_chars d)
  = Z.of_nat (Nat.of_uint_acc d acc).
Proof.
  induction d; intros acc; cbn [uint_chars digits_value Nat.of_uint_acc];
    try reflexivity;
    change (is_digit _) with true; cbn iota;
    rewrite <- IHd; f_equal; rewrite Nat.tail_mul_spec; lia.
Qed.

Lemma index_text_shape (i : nat) :
  exists c rest, index_text i = c :: rest /\ is_digit c = true.
Proof.
  unfold index_text.
  destruct (Nat.to_uint i) as [|d|d|d|d|d|d|d|d|d|d] eqn:Hu;
    try (eexists _, _; split; reflexivity).
  exfalso. pose proof (Unsigned.of_to i) as Hi. rewrite Hu in Hi.
  destruct i; [discriminate Hu | discriminate Hi].
Qed.

Lemma parseInt_index_text (i : nat) : parseInt (index_text i) = Some (Z.of_nat i).
Proof.
  destruct (index_text_shape i) as (c & rest & Hs & Hc).
  unfold parseInt. rewrite Hs.
  assert (48 <= c <= 57) as Hr.
  { unfold is_digit in Hc. apply andb_true_iff in Hc as [H1 H2].
    apply Z.leb_le in H1, H2. lia. }
  assert (is_space c = false) as Hsp.
  { unfold is_space. apply orb_false_iff. split.
    - apply bool_decide_eq_false. intros Hin.
      repeat (apply elem_of_cons in Hin as [->|Hin]; [lia|]).
      inversion Hin.
    - apply andb_false_iff. left. apply Z.leb_gt. lia. }
  cbn [skip_spaces]. rewrite Hsp.
  assert (c <> 45 /\ c <> 43) as [H45 H43] by lia.
  assert (match c :: rest with
          | 45 :: r => (-1, r) | 43 :: r => (1, r) | _ => (1, c :: rest)
          end = (1, c :: rest)) as ->.
  { destruct c as [|p|p]; try reflexivity.
    do 6 (destruct p as [p|p|]; try reflexivity); lia. }
  rewrite Hc, <- Hs. f_equal.
  change 0 with (Z.of_nat 0). unfold index_text.
  rewrite digits_value_uint. fold (Nat.of_uint (Nat.to_uint i)).
  rewrite Unsigned.of_to. lia.
Qed.

(** X17. The option built for the file at index [i] carries [i] as its value;
    selecting it picks that very file, by its path, or by its name when the
    path is missing or empty.  With nothing selected the selection is
    invalid. *)
Theorem choose_selected_option (files : list file) (i : nat) (f : file) :
  files !! i = Some f ->
  choose files (index_text i)
  = Picked (if not (path f) then name f else path f)
  /\ choose files [] = Invalid.
Proof.
  intros Hf. split; [|reflexivity].
  unfold choose. rewrite parseInt_index_text.
  pose proof (lookup_lt_Some _ _ _ Hf) as Hlt.
  destruct (Z.ltb_spec (Z.of_nat i) 0); [lia|].
  destruct (Z.geb_spec (Z.of_nat i) (length files)) as [Hge|_];
    [unfold length in Hge; lia|].
  simpl. rewrite Nat2Z.id, Hf. reflexivity.
Qed.

End ChooserProperties.

(** ** The properties on sample inputs *)

Section OnSamples.
Import JS HistoryLoader Examples Samples.

Lemma samples_well_formed :
  Forall Stream.well_formed [prompt_chunk; workflow_chunk; iend_chunk].
Proof.
  repeat (apply List.Forall_cons;
          [vm_compute; repeat split; reflexivity|]).
  apply List.Forall_nil.
Qed.

Lemma parsePngTexts_reads_whole_chunks_witness :
  parsePngTexts 4
    (signature ++ Stream.stream [prompt_chunk; workflow_chunk; iend_chunk]
     ++ bytes [7])
  = Some {[ str "prompt" := str "{}"; str "workflow" := str "{}" ]}.
Proof.
  refine (parsePngTexts_reads_whole_chunks signature (bytes [7])
            [prompt_chunk; workflow_chunk; iend_chunk] 4 _ _ _ _).
  - reflexivity.
  - exact samples_well_formed.
  - vm_compute. reflexivity.
  - vm_compute. lia.
Defined.

Lemma parsePngTexts_reads_cut_file_witness :
  parsePngTexts 3
    (signature ++ Stream.stream [prompt_chunk]
     ++ take 20 (Stream.chunk_bytes workflow_chunk))
  = Some {[ str "prompt" := str "{}"; str "workflow" := str "{}" ]}.
Proof.
  refine (parsePngTexts_reads_cut_file signature [prompt_chunk]
            workflow_chunk 20 3 _ _ _ _).
  - reflexivity.
  - apply List.Forall_cons; [vm_compute; repeat split; reflexivity|].
    apply List.Forall_nil.
  - vm_compute. repeat split; reflexivity.
  - vm_compute. lia.
Defined.

Lemma parsePngTexts_finds_last_text_witness :
  exists m,
    parsePngTexts 4
      (signature
       ++ Stream.stream ([prompt_chunk] ++ workflow_chunk :: [iend_chunk])
       ++ [])
    = Some m
    /\ m !! str "workflow" = Some (str "{}").
Proof.
  refine (parsePngTexts_finds_last_text signature [] (ascii_bytes "workflow")
            (ascii_bytes "{}") (bytes [0; 0; 0; 0]) [prompt_chunk]
            [iend_chunk] 4 _ _ _ _ _ _ _ _ _).
  - reflexivity.
  - exact samples_well_formed.
  - vm_compute. reflexivity.
  - vm_compute. lia.
  - vm_compute. repeat constructor.
  - vm_compute. intros H. repeat (apply elem_of_cons in H as [H|H]; [discriminate H|]).
    apply elem_of_nil in H. exact H.
  - vm_compute. discriminate.
  - vm_compute. repeat constructor.
  - vm_compute. intros H. apply elem_of_nil in H. exact H.
Defined.

Lemma parsePngTexts_never_binds_proto_witness :
  parsePngTexts 5 proto_png = Some ∅
  /\ (∅ : gmap (list Z) (list Z)) !! str "__proto__" = None.
Proof.
  assert (H : parsePngTexts 5 proto_png = Some ∅) by (vm_compute; reflexivity).
  split; [exact H|].
  exact (parsePngTexts_never_binds_proto 5 proto_png ∅ H).
Defined.

Lemma parsePngTexts_hangs_at_FFFFFFF4_witness :
  parsePngTexts 1000 stuck_file = None.
Proof.
  refine (parsePngTexts_hangs_at_FFFFFFF4 stuck_file 1
            [chunk_view stuck_file 8] 29 _ _ _ _ 1000%nat).
  - vm_compute. reflexivity.
  - reflexivity.
  - vm_compute. discriminate.
  - vm_compute. reflexivity.
Defined.

Lemma too_short_for_any_chunk_witness :
  parsePngTexts 1 signature = Some ∅
  /\ readPngWorkflow 1 signature (str "prompt")
     = Some (Reject (str "No 'prompt' metadata found in PNG."))
  /\ forall w, w <> str "prompt" ->
       readPngWorkflow 1 signature w
       = Some (Reject (str "No 'workflow' metadata found in PNG.")).
Proof.
  refine (too_short_for_any_chunk signature 0 _).
  vm_compute. reflexivity.
Defined.

Lemma local_and_remote_load_agree_witness :
  Loaders.loadWorkflowFromPng jsstring parse_braces 4
    (signature ++ Stream.stream [workflow_chunk; iend_chunk])
  = Loaders.loadWorkflowFromRemotePng jsstring parse_braces 4
      (signature ++ Stream.stream [workflow_chunk; iend_chunk]).
Proof.
  refine (local_and_remote_load_agree jsstring parse_braces 4
            (signature ++ Stream.stream [workflow_chunk; iend_chunk])
            {[ str "workflow" := str "{}" ]} _ _).
  - vm_compute. reflexivity.
  - vm_compute. discriminate.
Defined.

Lemma loads_last_workflow_chunk_witness :
  Loaders.loadWorkflowFromPng jsstring parse_braces 4
    (signature
     ++ Stream.stream ([prompt_chunk] ++ workflow_chunk :: [iend_chunk])
     ++ [])
  = Some (Loaders.Load (str "{}"))
  /\ Loaders.loadWorkflowFromRemotePng jsstring parse_braces 4
       (signature
        ++ Stream.stream ([prompt_chunk] ++ workflow_chunk :: [iend_chunk])
        ++ [])
     = Some (Loaders.Load (str "{}")).
Proof.
  refine (loads_last_workflow_chunk jsstring parse_braces signature []
            (ascii_bytes "{}") (bytes [0; 0; 0; 0]) [prompt_chunk]
            [iend_chunk] 4 _ _ _ _ _ _ _).
  - reflexivity.
  - exact samples_well_formed.
  - vm_compute. reflexivity.
  - vm_compute. lia.
  - vm_compute. repeat constructor.
  - discriminate.
  - vm_compute. intros H. apply elem_of_nil in H. exact H.
Defined.

Lemma collect_normal_witness :
  ModuleLoader.collect decode_or_throw decode_or_throw
    [module_chunk "tEXt" (bytes [65]); module_chunk "IDAT" [];
     module_chunk "zTXt" []] ∅
  = ModuleLoader.Normal {[ str "k" := [65] ]}.
Proof.
  refine (collect_normal decode_or_throw decode_or_throw
            [module_chunk "tEXt" (bytes [65]); module_chunk "IDAT" [];
             module_chunk "zTXt" []] ∅ _).
  intros c err H [Hname Hdata].
  repeat (apply elem_of_cons in H as [->|H]; [discriminate|]).
  apply elem_of_nil in H. exact H.
Defined.

Lemma collect_throws_witness :
  ModuleLoader.collect decode_or_throw decode_or_throw
    ([module_chunk "tEXt" (bytes [65])] ++ module_chunk "tEXt" []
     :: [module_chunk "tEXt" (bytes [66])]) ∅
  = ModuleLoader.Throw (str "no data").
Proof.
  refine (collect_throws decode_or_throw decode_or_throw
            [module_chunk "tEXt" (bytes [65])] [module_chunk "tEXt" (bytes [66])]
            (module_chunk "tEXt" []) (str "no data") ∅ _ _).
  - intros c err H [Hname Hdata].
    repeat (apply elem_of_cons in H as [->|H]; [discriminate|]).
    apply elem_of_nil in H. exact H.
  - split; reflexivity.
Defined.

Lemma loadTexts_counts_witness :
  match LoadText.loadTexts Z jsstring
          (Some [LoadText.Entry Z jsstring 1 (str "first");
                 LoadText.Entry Z jsstring 2 (str "lost");
                 LoadText.Entry Z jsstring 1 (str "new")]) one_node with
  | LoadText.Error _ => False
  | LoadText.Status st =>
      LoadText.applied Z jsstring st = 2 /\ LoadText.missing Z jsstring st = 1
  end.
Proof.
  generalize (loadTexts_counts Z jsstring
                (Some [LoadText.Entry Z jsstring 1 (str "first");
                       LoadText.Entry Z jsstring 2 (str "lost");
                       LoadText.Entry Z jsstring 1 (str "new")]) one_node).
  destruct (LoadText.loadTexts Z jsstring _ one_node) as [st|message].
  - intros (es & Hes & _ & Happlied & Hmissing).
    injection Hes as <-. rewrite Happlied, Hmissing.
    split; vm_compute; reflexivity.
  - intros (_ & [H|H]); discriminate H.
Defined.

Lemma loadTexts_graph_witness :
  match LoadText.loadTexts Z jsstring
          (Some ([LoadText.Entry Z jsstring 1 (str "first")]
                 ++ LoadText.Entry Z jsstring 1 (str "new")
                 :: [LoadText.Entry Z jsstring 2 (str "lost")])) one_node with
  | LoadText.Error _ => False
  | LoadText.Status st =>
      LoadText.graph Z jsstring st !! 1
      = Some (LoadText.Node jsstring
                (Some ([LoadText.Widget jsstring (str "seed") (str "7")]
                       ++ LoadText.Widget jsstring (str "text") (str "new")
                       :: [])))
  end.
Proof.
  assert (forall e',
            e' ∈ [LoadText.Entry Z jsstring 2 (str "lost")] ->
            LoadText.id Z jsstring e'
            <> LoadText.id Z jsstring
                 (LoadText.Entry Z jsstring 1 (str "new"))) as Hlast.
  { intros e' H. apply elem_of_cons in H as [->|H]; [discriminate|].
    apply elem_of_nil in H. destruct H. }
  generalize (loadTexts_graph Z jsstring
                [LoadText.Entry Z jsstring 1 (str "first")]
                [LoadText.Entry Z jsstring 2 (str "lost")]
                (LoadText.Entry Z jsstring 1 (str "new")) one_node 5 Hlast).
  destruct (LoadText.loadTexts Z jsstring _ one_node) as [st|message];
    [|exact (fun H => H)].
  intros (Hfound & _).
  apply (Hfound [LoadText.Widget jsstring (str "seed") (str "7")]
           (LoadText.Widget jsstring (str "text") (str "old")) []).
  - reflexivity.
  - apply List.Forall_cons; [discriminate | apply List.Forall_nil].
  - reflexivity.
Defined.

Lemma place_buttons_once_witness :
  (forall id, id ∈ Menu.buttons ->
     id ∈ Menu.ids (Menu.place_buttons page_with_save
                      (Menu.MenuEl true [str "prompt-history-save"])))
  /\ (forall id, id ∈ Menu.ids page_with_save ->
        id ∈ Menu.ids (Menu.place_buttons page_with_save
                         (Menu.MenuEl true [str "prompt-history-save"])))
  /\ (NoDup (Menu.ids page_with_save) ->
      NoDup (Menu.ids (Menu.place_buttons page_with_save
                         (Menu.MenuEl true [str "prompt-history-save"]))))
  /\ (forall m',
        Menu.menu (Menu.place_buttons page_with_save
                     (Menu.MenuEl true [str "prompt-history-save"])) = Some m' ->
        Menu.place_buttons
          (Menu.place_buttons page_with_save
             (Menu.MenuEl true [str "prompt-history-save"])) m'
        = Menu.place_buttons page_with_save
            (Menu.MenuEl true [str "prompt-history-save"])).
Proof.
  refine (place_buttons_once page_with_save
            (Menu.MenuEl true [str "prompt-history-save"]) _).
  reflexivity.
Defined.

Lemma choose_selected_option_witness :
  Chooser.choose two_files (Chooser.index_text 1)
  = Chooser.Picked (Str (str "sub/b.png"))
  /\ Chooser.choose two_files [] = Chooser.Invalid.
Proof.
  refine (choose_selected_option two_files 1
            (Chooser.File Undefined (Str (str "sub/b.png"))) _).
  reflexivity.
Defined.

End OnSamples.
